(** * Tags and tag groups (package [tags])

    A shallow embedding of the Go package: the [Tag] value type with its
    constructors, accessors and text encoding, and the [TagGroup] container
    backed by a Go [map[string]Tag].

    Go strings are byte sequences and are modelled by [string] (one [ascii]
    per byte).  A Go map is a [gmap]; the order in which the runtime walks a
    map is not part of the map and is supplied separately (see [Runtime]). *)

From Stdlib Require Import ZArith Ascii String.
From stdpp Require Import gmap strings list fin_maps sorting.

Local Open Scope Z_scope.
#[local] Set Warnings "-clear-no-such-hyp".

(** ** Results of fallible functions: Go's [(T, error)] *)

(** [fmt.Errorf] builds an error that carries only its message. *)
Inductive error : Type :=
  | Errorf (msg : string).

Inductive result (A : Type) : Type :=
  | Ok (a : A)
  | Err (e : error).
Arguments Ok {A} a.
Arguments Err {A} e.

Definition is_Ok {A} (r : result A) : bool :=
  match r with Ok _ => true | Err _ => false end.

(** ** The parts of Go's [strings], [unicode] and [utf8] packages in use *)

Module strings.

Definition byte_val (c : ascii) : Z := Z.of_N (N_of_ascii c).

Definition len (s : string) : nat := String.length s.

Fixpoint drop (n : nat) (s : string) : string :=
  match n, s with
  | O, _ => s
  | S n', String _ s' => drop n' s'
  | S _, EmptyString => EmptyString
  end.

Fixpoint take (n : nat) (s : string) : string :=
  match n, s with
  | S n', String c s' => String c (take n' s')
  | _, _ => EmptyString
  end.

(** [s[i]] for an index known to be in range; [0] stands in otherwise. *)
Definition byte_at (s : string) (i : Z) : Z :=
  if i <? 0 then 0
  else match String.get (Z.to_nat i) s with
       | Some c => byte_val c
       | None => 0
       end.

(** *** utf8.DecodeRuneInString *)

Definition RuneError : Z := 65533.
Definition RuneSelf : Z := 128.
Definition locb : Z := 128.
Definition hicb : Z := 191.

(** The [first] table: what the leading byte announces. *)
Inductive first_info : Type :=
  | FirstAscii
  | FirstInvalid
  | FirstLead (sz : nat) (lo hi : Z).

Definition first (s0 : Z) : first_info :=
  if s0 <? 128 then FirstAscii
  else if s0 <? 194 then FirstInvalid
  else if s0 <? 224 then FirstLead 2 locb hicb
  else if s0 =? 224 then FirstLead 3 160 hicb
  else if s0 <? 237 then FirstLead 3 locb hicb
  else if s0 =? 237 then FirstLead 3 locb 159
  else if s0 <? 240 then FirstLead 3 locb hicb
  else if s0 =? 240 then FirstLead 4 144 hicb
  else if s0 <? 244 then FirstLead 4 locb hicb
  else if s0 =? 244 then FirstLead 4 locb 143
  else FirstInvalid.

Definition DecodeRuneInString (s : string) : Z * nat :=
  match s with
  | EmptyString => (RuneError, O)
  | String c0 _ =>
      let s0 := byte_val c0 in
      match first s0 with
      | FirstAscii => (s0, 1%nat)
      | FirstInvalid => (RuneError, 1%nat)
      | FirstLead sz lo hi =>
          if (len s <? sz)%nat then (RuneError, 1%nat)
          else
            let s1 := byte_at s 1 in
            if (s1 <? lo) || (hi <? s1) then (RuneError, 1%nat)
            else if (sz <=? 2)%nat then
              (Z.lor (Z.shiftl (Z.land s0 31) 6) (Z.land s1 63), 2%nat)
            else
              let s2 := byte_at s 2 in
              if (s2 <? locb) || (hicb <? s2) then (RuneError, 1%nat)
              else if (sz <=? 3)%nat then
                (Z.lor (Z.shiftl (Z.land s0 15) 12)
                   (Z.lor (Z.shiftl (Z.land s1 63) 6) (Z.land s2 63)), 3%nat)
              else
                let s3 := byte_at s 3 in
                if (s3 <? locb) || (hicb <? s3) then (RuneError, 1%nat)
                else
                  (Z.lor (Z.shiftl (Z.land s0 7) 18)
                     (Z.lor (Z.shiftl (Z.land s1 63) 12)
                        (Z.lor (Z.shiftl (Z.land s2 63) 6) (Z.land s3 63))),
                   4%nat)
      end
  end.

(** *** utf8.DecodeLastRuneInString *)

Definition RuneStart (b : Z) : bool := negb (Z.land b 192 =? 128).

(** The backwards scan [for start--; start >= lim; start--]. *)
Fixpoint scan_back (s : string) (lim start : Z) (fuel : nat) : Z :=
  match fuel with
  | O => start
  | S fuel' =>
      if start <? lim then start
      else if RuneStart (byte_at s start) then start
      else scan_back s lim (start - 1) fuel'
  end.

Definition DecodeLastRuneInString (s : string) : Z * nat :=
  let end_ := Z.of_nat (len s) in
  if end_ =? 0 then (RuneError, O)
  else
    let r := byte_at s (end_ - 1) in
    if r <? RuneSelf then (r, 1%nat)
    else
      let lim := Z.max 0 (end_ - 4) in
      let start := Z.max 0 (scan_back s lim (end_ - 2) 4) in
      let '(r, size) := DecodeRuneInString (drop (Z.to_nat start) s) in
      if negb (start + Z.of_nat size =? end_) then (RuneError, 1%nat)
      else (r, size).

(** *** unicode.IsSpace *)

Definition IsSpace (r : Z) : bool :=
  if r <=? 255 then
    (r =? 9) || (r =? 10) || (r =? 11) || (r =? 12) || (r =? 13)
    || (r =? 32) || (r =? 133) || (r =? 160)
  else
    (r =? 5760) || ((8192 <=? r) && (r <=? 8202))
    || (r =? 8232) || (r =? 8233) || (r =? 8239) || (r =? 8287)
    || (r =? 12288).

(** *** strings.TrimSpace

    [TrimSpace] is [TrimFunc(s, unicode.IsSpace)] (the library's byte loop
    for ASCII input is a fast path of it): leading white space runes are
    cut, then trailing ones. *)

Fixpoint TrimLeft_loop (fuel : nat) (s : string) : string :=
  match fuel with
  | O => s
  | S fuel' =>
      match s with
      | EmptyString => s
      | _ =>
          let '(r, size) := DecodeRuneInString s in
          if IsSpace r then TrimLeft_loop fuel' (drop size s) else s
      end
  end.

Fixpoint TrimRight_loop (fuel : nat) (s : string) : string :=
  match fuel with
  | O => s
  | S fuel' =>
      match s with
      | EmptyString => s
      | _ =>
          let '(r, size) := DecodeLastRuneInString s in
          if IsSpace r then TrimRight_loop fuel' (take (len s - size) s) else s
      end
  end.

Definition TrimSpace (s : string) : string :=
  let s := TrimLeft_loop (len s) s in
  TrimRight_loop (len s) s.

(** *** strings.HasPrefix, Index, Count *)

Fixpoint HasPrefix (s prefix : string) : bool :=
  match prefix, s with
  | EmptyString, _ => true
  | String p prefix', String c s' =>
      if Ascii.eqb c p then HasPrefix s' prefix' else false
  | String _ _, EmptyString => false
  end.

(** [Index] returns [None] where Go returns [-1]. *)
Fixpoint Index (s substr : string) : option nat :=
  if HasPrefix s substr then Some O
  else match s with
       | EmptyString => None
       | String _ s' => S <$> Index s' substr
       end.

(** The runes of [s], each as the substring that encodes it. *)
Fixpoint runes (fuel : nat) (s : string) : list string :=
  match fuel with
  | O => []
  | S fuel' =>
      match s with
      | EmptyString => []
      | _ =>
          let '(_, size) := DecodeRuneInString s in
          take size s :: runes fuel' (drop size s)
      end
  end.

Definition RuneCountInString (s : string) : nat :=
  length (runes (len s) s).

(** [bytealg.CountString]: how often byte [c] occurs. *)
Fixpoint CountString (s : string) (c : ascii) : nat :=
  match s with
  | EmptyString => O
  | String c' s' =>
      ((if Ascii.eqb c' c then 1 else 0) + CountString s' c)%nat
  end.

Fixpoint Count_loop (fuel : nat) (s substr : string) : nat :=
  match fuel with
  | O => O
  | S fuel' =>
      match Index s substr with
      | None => O
      | Some i => S (Count_loop fuel' (drop (i + len substr) s) substr)
      end
  end.

Definition Count (s substr : string) : nat :=
  match substr with
  | EmptyString => (RuneCountInString s + 1)%nat
  | String c EmptyString => CountString s c
  | _ => Count_loop (len s) s substr
  end.

(** *** strings.Split

    [explode] cuts [s] into its runes; [genSplit_loop] is the loop of
    [genSplit] that fills at most [n] pieces before the remainder. *)

Definition explode (s : string) : list string := runes (len s) s.

Fixpoint genSplit_loop (n : nat) (s sep : string) : list string :=
  match n with
  | O => [s]
  | S n' =>
      match Index s sep with
      | None => [s]
      | Some m => take m s :: genSplit_loop n' (drop (m + len sep) s) sep
      end
  end.

Definition Split (s sep : string) : list string :=
  match sep with
  | EmptyString => explode s
  | _ =>
      let n := (Count s sep + 1)%nat in
      let n := if (len s + 1 <? n)%nat then (len s + 1)%nat else n in
      genSplit_loop (n - 1) s sep
  end.

(** *** strings.Join *)

Fixpoint Join (elems : list string) (sep : string) : string :=
  match elems with
  | [] => EmptyString
  | [e] => e
  | e :: rest => e +:+ sep +:+ Join rest sep
  end.

End strings.

(** ** The parts of [golang.org/x/exp/slices] in use *)

Module slices.

Definition ContainsFunc {A} (s : list A) (f : A → bool) : bool := existsb f s.

Definition Contains `{EqDecision A} (s : list A) (v : A) : bool :=
  ContainsFunc s (λ e, bool_decide (e = v)).

Definition Equal `{EqDecision A} (s1 s2 : list A) : bool :=
  bool_decide (s1 = s2).

(** A stable sort: an element moves left only past strictly greater ones. *)
Fixpoint insert_stable {A} (less : A → A → bool) (x : A) (l : list A) : list A :=
  match l with
  | [] => [x]
  | y :: l' => if less y x then y :: insert_stable less x l' else x :: l
  end.

Definition SortStableFunc {A} (x : list A) (less : A → A → bool) : list A :=
  foldr (insert_stable less) [] x.

End slices.

(** ** Map iteration

    Go leaves the order in which a map is walked to the runtime.  The
    runtime's choice is the parameter [range_order]: the keys of the map in
    the order of the walk.  [fair] says that a choice lists every key of the
    map exactly once; nothing else is known about it.  Within one call the
    order is a function of the map that is walked; from one call to the
    next the runtime may be another one (see [reachable]).  The general
    properties below hold for every fair runtime and do not depend on two
    walks of one map agreeing. *)

Definition Runtime : Type := ∀ V : Type, gmap string V → list string.

Definition fair (range_order : Runtime) : Prop :=
  ∀ V (m : gmap string V), range_order V m ≡ₚ (map_to_list m).*1.

(** Two runtimes to evaluate with: the listing order of [gmap], and a walk
    that visits the keys of [pref] first, in that order. *)
Definition listing_order : Runtime := λ V m, (map_to_list m).*1.

Definition order_by (pref : list string) : Runtime := λ V m,
  List.filter (λ k, bool_decide (is_Some (m !! k))) pref
  ++ List.filter (λ k, negb (bool_decide (k ∈ pref))) (map_to_list m).*1.

(** ** tag.go *)

Definition nameValueSeparator : string := ":".
Definition valuesSeparator : string := ",".

Record Tag : Type := mkTag {
  Tag_name : string;
  Tag_values : list string;
}.

Global Instance Tag_eq_dec : EqDecision Tag.
Proof. solve_decision. Defined.

Definition MatchFunc : Type := Tag → bool.
Definition LessFunc : Type := Tag → Tag → bool.

Definition Tag_Name (t : Tag) : string := Tag_name t.

Definition Tag_IsLabel (t : Tag) : bool := (length (Tag_values t) =? 0)%nat.

Definition Tag_Value (t : Tag) : string :=
  if Tag_IsLabel t then EmptyString
  else match Tag_values t with
       | v :: _ => v
       | [] => EmptyString
       end.

Definition Tag_Values (t : Tag) : list string :=
  if (length (Tag_values t) =? 0)%nat then [] else Tag_values t.

Definition Tag_IsSingleValue (t : Tag) : bool :=
  (length (Tag_values t) =? 0)%nat.

Definition Tag_IsMultiValue (t : Tag) : bool :=
  (1 <? length (Tag_values t))%nat.

Definition Tag_HasName (t : Tag) (name : string) : bool :=
  bool_decide (Tag_name t = name).

Definition Tag_HasValues (t : Tag) (values : list string) : bool :=
  slices.ContainsFunc (Tag_Values t) (λ value, slices.Contains values value).

Definition Tag_HasFunc (t : Tag) (fn : MatchFunc) : bool := fn t.

Definition Tag_String (t : Tag) : string :=
  if Tag_IsLabel t then Tag_name t
  else Tag_name t +:+ ":" +:+ strings.Join (Tag_Values t) ",".

Definition FormatError (tag : string) : error :=
  Errorf ("invalid format: '" +:+ tag +:+ "' (valid format: 'name[:value,...]')").

Definition Parse (tag : string) : result Tag :=
  let nameValues := strings.Split tag nameValueSeparator in
  match nameValues with
  | [n] => Ok {| Tag_name := n; Tag_values := [] |}
  | [n; v] =>
      let values := strings.Split valuesSeparator v in
      Ok {| Tag_name := n; Tag_values := values |}
  | _ => Err (FormatError tag)
  end.

(** ** group.go: the data *)

Record TagGroup : Type := mkTagGroup {
  TagGroup_name : string;
  TagGroup_tags : gmap string Tag;
}.

Definition set_name (g : TagGroup) (n : string) : TagGroup :=
  {| TagGroup_name := n; TagGroup_tags := TagGroup_tags g |}.

Definition set_tags (g : TagGroup) (m : gmap string Tag) : TagGroup :=
  {| TagGroup_name := TagGroup_name g; TagGroup_tags := m |}.

Section Code.

Variable range_order : Runtime.

(** [maps.Values]: the values of [m] in the order of the walk. *)
Definition maps_Values {V} (m : gmap string V) : list V :=
  omap (λ k, m !! k) (range_order V m).

(** [maps.DeleteFunc]: the predicate is applied to every entry once, so the
    order of the walk does not show in the result. *)
Definition maps_DeleteFunc {V} (m : gmap string V) (del : string → V → bool)
  : gmap string V :=
  filter (λ kv, del kv.1 kv.2 = false) m.

(** *** Tag constructors *)

Definition New (name : string) (values : list string) : result Tag :=
  if bool_decide (strings.TrimSpace name = EmptyString) then
    Err (Errorf "name required")
  else
    let uniqueValues : gmap string string :=
      foldl (λ m v, <[v := v]> m) ∅ values in
    let uniqueValues :=
      maps_DeleteFunc uniqueValues
        (λ key _, bool_decide (strings.TrimSpace key = EmptyString)) in
    Ok {| Tag_name := name; Tag_values := maps_Values uniqueValues |}.

Definition NewLabel (name : string) : result Tag := New name [].

Definition NewSingleValue (name value : string) : result Tag :=
  match New name [value] with
  | Err err => Err err
  | Ok tag =>
      if (length (Tag_Values tag) =? 0)%nat then Err (Errorf "value required")
      else Ok tag
  end.

Definition NewMultiValue (name : string) (values : list string) : result Tag :=
  match New name values with
  | Err err => Err err
  | Ok tag =>
      if (length (Tag_Values tag) <? 2)%nat then
        Err (Errorf "at least two unique values required")
      else Ok tag
  end.

(** *** TagGroup methods

    A method with a pointer receiver that changes the group returns the
    group after the call. *)

Definition TagGroup_Name (g : TagGroup) : string := TagGroup_name g.

Definition TagGroup_Rename (g : TagGroup) (newName : string) : result TagGroup :=
  if bool_decide (strings.TrimSpace newName = EmptyString) then
    Err (Errorf "name required")
  else Ok (set_name g newName).

Definition TagGroup_Tags (g : TagGroup) : list Tag :=
  maps_Values (TagGroup_tags g).

Definition TagGroup_Add (g : TagGroup) (tags : list Tag) : TagGroup :=
  foldl (λ g t, set_tags g (<[Tag_name t := t]> (TagGroup_tags g))) g tags.

Definition TagGroup_FindFunc (g : TagGroup) (fn : MatchFunc) : list Tag :=
  List.filter fn (TagGroup_Tags g).

Definition TagGroup_Contains (g : TagGroup) (tags : list Tag) : bool :=
  let found := TagGroup_FindFunc g (λ tag1,
    slices.ContainsFunc tags (λ tag2,
      bool_decide (Tag_name tag1 = Tag_name tag2)
      && slices.Equal (Tag_Values tag1) (Tag_Values tag2))) in
  (length tags =? length found)%nat.

Definition TagGroup_FindNames (g : TagGroup) (names : list string) : list Tag :=
  TagGroup_FindFunc g (λ tag, slices.Contains names (Tag_Name tag)).

Definition TagGroup_ContainsNames (g : TagGroup) (names : list string) : bool :=
  (length names =? length (TagGroup_FindNames g names))%nat.

Definition TagGroup_ContainsFunc (g : TagGroup) (fn : MatchFunc) : bool :=
  negb (length (TagGroup_FindFunc g fn) =? 0)%nat.

Definition TagGroup_ContainsValues (g : TagGroup) (values : list string) : bool :=
  TagGroup_ContainsFunc g (λ tag, Tag_HasValues tag values).

Definition TagGroup_FindValues (g : TagGroup) (values : list string) : list Tag :=
  TagGroup_FindFunc g (λ tag, Tag_HasValues tag values).

(** [RemoveFunc] walks a snapshot of the members and deletes from the live
    map.  A Go closure passed as [fn] may read the group through the pointer
    it captured, so [fn] is given the group as it is at the time of the
    call. *)
Definition TagGroup_RemoveFunc (g : TagGroup) (fn : TagGroup → MatchFunc)
  : TagGroup :=
  foldl (λ g t,
           if fn g t then set_tags g (delete (Tag_name t) (TagGroup_tags g))
           else g)
    g (TagGroup_Tags g).

(** In [Remove] the parameter of the inner closure shadows the one of the
    outer closure: the member under test, [_tag], is not used. *)
Definition TagGroup_Remove (g : TagGroup) (tags : list Tag) : TagGroup :=
  TagGroup_RemoveFunc g (λ g _tag,
    slices.ContainsFunc tags (λ tag, TagGroup_Contains g [tag])).

Definition TagGroup_RemoveNames (g : TagGroup) (names : list string) : TagGroup :=
  TagGroup_RemoveFunc g (λ _ tag, slices.Contains names (Tag_Name tag)).

Definition TagGroup_RemoveValues (g : TagGroup) (values : list string) : TagGroup :=
  TagGroup_RemoveFunc g (λ _ tag, Tag_HasValues tag values).

(** [SortFunc] sorts the slice that [Tags] has just allocated; the slice is
    dropped when the method returns. *)
Definition TagGroup_SortFunc (g : TagGroup) (fn : LessFunc) : TagGroup :=
  let _ := slices.SortStableFunc (TagGroup_Tags g) fn in
  g.

Definition TagGroup_SortNames (g : TagGroup) (desc : bool) : TagGroup :=
  TagGroup_SortFunc g (λ tag1 tag2,
    if desc then String.ltb (Tag_Name tag2) (Tag_Name tag1)
    else String.ltb (Tag_Name tag1) (Tag_Name tag2)).

Definition NewGroup (name : string) (tags : list Tag) : result TagGroup :=
  let group := {| TagGroup_name := EmptyString; TagGroup_tags := ∅ |} in
  match TagGroup_Rename group name with
  | Err err => Err err
  | Ok group =>
      let group := set_tags group ∅ in
      Ok (TagGroup_Add group tags)
  end.

(** [Must] panics on an error: [None].  The name that [shortid] generates is
    the argument [id]. *)
Definition Must {A} (r : result A) : option A :=
  match r with Ok a => Some a | Err _ => None end.

Definition NewGroupWithGeneratedName (id : string) (tags : list Tag)
  : option TagGroup :=
  Must (NewGroup id tags).

End Code.

(** ** Notions the properties are stated with *)

Local Open Scope nat_scope.

(** How many [':'] bytes a string holds. *)
Definition colons (s : string) : nat :=
  length (List.filter (λ c, Ascii.eqb c ":") (list_ascii_of_string s)).

(** The members of a group, in the listing order of the map. *)
Definition members (g : TagGroup) : list Tag :=
  (map_to_list (TagGroup_tags g)).*2.

(** Every member is stored under its own name. *)
Definition TagGroup_inv (g : TagGroup) : Prop :=
  map_Forall (λ k t, Tag_name t = k) (TagGroup_tags g).

(** The groups a client can build: [NewGroup], then any sequence of
    methods, each walking the map in an order of the runtime's choice. *)
Inductive reachable : TagGroup → Prop :=
  | reach_NewGroup name tags g :
      NewGroup name tags = Ok g → reachable g
  | reach_Rename g newName g' :
      reachable g → TagGroup_Rename g newName = Ok g' → reachable g'
  | reach_Add g tags :
      reachable g → reachable (TagGroup_Add g tags)
  | reach_Remove rt g tags :
      fair rt → reachable g → reachable (TagGroup_Remove rt g tags)
  | reach_RemoveNames rt g names :
      fair rt → reachable g → reachable (TagGroup_RemoveNames rt g names)
  | reach_RemoveValues rt g values :
      fair rt → reachable g → reachable (TagGroup_RemoveValues rt g values)
  | reach_RemoveFunc rt g fn :
      fair rt → reachable g → reachable (TagGroup_RemoveFunc rt g fn)
  | reach_SortNames rt g desc :
      fair rt → reachable g → reachable (TagGroup_SortNames rt g desc)
  | reach_SortFunc rt g fn :
      fair rt → reachable g → reachable (TagGroup_SortFunc rt g fn).

(** The closure that [Contains] passes to [FindFunc]. *)
Definition Contains_match (tags : list Tag) (tag1 : Tag) : bool :=
  slices.ContainsFunc tags (λ tag2,
    bool_decide (Tag_name tag1 = Tag_name tag2)
    && slices.Equal (Tag_Values tag1) (Tag_Values tag2)).

(** A supplied tag and a member agree on the name and on the values as a
    sequence. *)
Definition same_tag (m t : Tag) : Prop :=
  Tag_name m = Tag_name t ∧ Tag_Values m = Tag_Values t.

(** A supplied tag and a member agree on the name and on the values as a
    set. *)
Definition same_tag_up_to_order (m t : Tag) : Prop :=
  Tag_name m = Tag_name t ∧ ∀ v, v ∈ Tag_Values m ↔ v ∈ Tag_Values t.

(** Names in ascending or descending byte order. *)
Definition sorted_by_name (desc : bool) (l : list Tag) : Prop :=
  Sorted (λ t1 t2,
            if desc then String.ltb (Tag_Name t2) (Tag_Name t1) = true
            else String.ltb (Tag_Name t1) (Tag_Name t2) = true) l.

(** ** Sample tags and groups *)

Definition tag_x1 : Tag := {| Tag_name := "x"; Tag_values := ["1"]%string |}.
Definition tag_x2 : Tag := {| Tag_name := "x"; Tag_values := ["2"]%string |}.
Definition tag_y2 : Tag := {| Tag_name := "y"; Tag_values := ["2"]%string |}.
Definition tag_x12 : Tag :=
  {| Tag_name := "x"; Tag_values := ["1"; "2"]%string |}.
Definition tag_x21 : Tag :=
  {| Tag_name := "x"; Tag_values := ["2"; "1"]%string |}.
Definition tag_a1 : Tag := {| Tag_name := "a"; Tag_values := ["1"]%string |}.
Definition tag_b1 : Tag := {| Tag_name := "b"; Tag_values := ["1"]%string |}.
Definition tag_c1 : Tag := {| Tag_name := "c"; Tag_values := ["1"]%string |}.

(** The group that [NewGroup name tags] returns when it accepts [name]. *)
Definition group_of (name : string) (tags : list Tag) : TagGroup :=
  TagGroup_Add {| TagGroup_name := name; TagGroup_tags := ∅ |} tags.

(** * Properties *)

(** ** The model of [strings] on small inputs *)

Example Split_example1 : strings.Split "a:b,c" ":" = ["a"; "b,c"]%string.
Proof. reflexivity. Qed.
Example Split_example2 : strings.Split "a:" ":" = ["a"; ""]%string.
Proof. reflexivity. Qed.
Example Split_example3 : strings.Split "," "" = [","]%string.
Proof. reflexivity. Qed.
Example Split_example4 : strings.Split "," "," = [""; ""]%string.
Proof. reflexivity. Qed.
Example Split_example5 : strings.Split "," "b,c" = [","]%string.
Proof. reflexivity. Qed.
Example Split_example6 : strings.Split "" ":" = [""]%string.
Proof. reflexivity. Qed.
Example TrimSpace_example1 : strings.TrimSpace "  a b	" = "a b"%string.
Proof. reflexivity. Qed.
Example TrimSpace_example2 : strings.TrimSpace "   " = ""%string.
Proof. reflexivity. Qed.
Example Join_example : strings.Join ["v1"; "v2"; "v3"]%string "," = "v1,v2,v3"%string.
Proof. reflexivity. Qed.

(** ** Splitting at a one-byte separator *)

Section SplitByte.

Variable c : ascii.
Local Abbreviation sep := (String c EmptyString).

Lemma CountString_colons s : strings.CountString s ":" = colons s.
Proof.
  unfold colons. induction s as [|a s IH]; simpl; [done|].
  rewrite IH. by destruct (Ascii.eqb a ":").
Qed.

Lemma CountString_le_len s : (strings.CountString s c ≤ strings.len s)%nat.
Proof.
  unfold strings.len. induction s as [|a s IH]; simpl; [lia|].
  destruct (Ascii.eqb a c); lia.
Qed.

Lemma HasPrefix_byte a s :
  strings.HasPrefix (String a s) sep = Ascii.eqb a c.
Proof. simpl. by destruct (Ascii.eqb a c), s. Qed.

Lemma Index_byte_None s :
  strings.Index s sep = None → strings.CountString s c = O.
Proof.
  induction s as [|a s IH]; [done|].
  cbn [strings.Index]. rewrite HasPrefix_byte. simpl.
  destruct (Ascii.eqb a c); [done|].
  destruct (strings.Index s sep); [done|]. intros _. by rewrite IH.
Qed.

Lemma Index_byte_Some s m :
  strings.Index s sep = Some m →
  strings.CountString s c
  = S (strings.CountString (strings.drop (m + strings.len sep) s) c)
  ∧ strings.CountString (strings.take m s) c = O.
Proof.
  revert m. induction s as [|a s IH]; intros m; [done|].
  cbn [strings.Index]. rewrite HasPrefix_byte.
  destruct (Ascii.eqb a c) eqn:Hac.
  - intros [= <-]. simpl. by rewrite Hac.
  - destruct (strings.Index s sep) as [m'|] eqn:Hi; [|done].
    intros [= <-]. destruct (IH m' eq_refl) as [IH1 IH2].
    simpl. rewrite Hac. simpl in IH1. by rewrite IH1, IH2.
Qed.

Lemma Index_byte_zero s :
  strings.CountString s c = O → strings.Index s sep = None.
Proof.
  intros H. destruct (strings.Index s sep) as [m|] eqn:Hi; [|done].
  apply Index_byte_Some in Hi as [Hi _]. lia.
Qed.

(** With as much fuel as there are separators, the loop cuts at every one
    of them. *)
Lemma genSplit_loop_length s :
  length (strings.genSplit_loop (strings.CountString s c) s sep)
  = S (strings.CountString s c).
Proof.
  remember (strings.CountString s c) as n eqn:Hn.
  revert s Hn. induction n as [|n IH]; intros s Hn; [done|].
  simpl. destruct (strings.Index s sep) as [m|] eqn:Hi.
  - apply Index_byte_Some in Hi as [Hi _]. simpl. f_equal. apply IH.
    rewrite Hi in Hn. by injection Hn.
  - apply Index_byte_None in Hi. congruence.
Qed.

Lemma Split_byte_unfold s :
  strings.Split s sep
  = strings.genSplit_loop (strings.CountString s c) s sep.
Proof.
  unfold strings.Split. cbn [strings.Count].
  pose proof (CountString_le_len s).
  destruct (Nat.ltb_spec (strings.len s + 1) (strings.CountString s c + 1));
    [lia|].
  f_equal. lia.
Qed.

Lemma Split_byte_length s :
  length (strings.Split s sep) = S (strings.CountString s c).
Proof. rewrite Split_byte_unfold. apply genSplit_loop_length. Qed.

Lemma Split_byte_absent s :
  strings.CountString s c = O → strings.Split s sep = [s].
Proof. intros H. rewrite Split_byte_unfold, H. done. Qed.

(** One separator: the part before it and the part after it. *)
Lemma Split_byte_once s :
  strings.CountString s c = 1%nat →
  ∃ m, strings.Index s sep = Some m
       ∧ strings.Split s sep = [strings.take m s; strings.drop (m + 1) s]
       ∧ strings.CountString (strings.take m s) c = O
       ∧ strings.CountString (strings.drop (m + 1) s) c = O.
Proof.
  intros H. rewrite Split_byte_unfold, H. simpl.
  destruct (strings.Index s sep) as [m|] eqn:Hi.
  - exists m. destruct (Index_byte_Some _ _ Hi) as [H1 H2].
    simpl in H1. repeat split; [done|lia].
  - apply Index_byte_None in Hi. lia.
Qed.

End SplitByte.

(** What [Parse] gets for its second [Split]: the separator is the string
    that is split, the text after the colon is what it is split at. *)
Lemma Split_comma_at v :
  strings.Split "," v
  = if bool_decide (v = ","%string) then [""; ""]%string else [","]%string.
Proof.
  destruct v as [|a [|b v]].
  - done.
  - unfold strings.Split. cbn [strings.Count strings.CountString].
    destruct (Ascii.eqb_spec "," a) as [<-|Hne].
    + done.
    + rewrite bool_decide_eq_false_2 by congruence.
      done.
  - rewrite bool_decide_eq_false_2 by done.
    assert (strings.Index "," (String a (String b v)) = None) as Hi.
    { cbn [strings.Index strings.HasPrefix].
      by destruct (Ascii.eqb "," a). }
    assert (strings.Count "," (String a (String b v)) = O) as Hc.
    { unfold strings.Count.
      cbn [strings.len String.length strings.Count_loop]. by rewrite Hi. }
    unfold strings.Split. by rewrite Hc.
Qed.

(** ** [Parse] *)

Lemma Parse_unfold tag :
  Parse tag
  = match strings.Split tag ":" with
    | [n] => Ok {| Tag_name := n; Tag_values := [] |}
    | [n; v] => Ok {| Tag_name := n; Tag_values := strings.Split "," v |}
    | _ => Err (FormatError tag)
    end.
Proof. reflexivity. Qed.

Example Parse_label : Parse "a" = Ok {| Tag_name := "a"; Tag_values := [] |}.
Proof. reflexivity. Qed.

Example Parse_two_colons : Parse "a:b:c" = Err (FormatError "a:b:c").
Proof. reflexivity. Qed.

Lemma Parse_no_colon tag :
  colons tag = O → Parse tag = Ok {| Tag_name := tag; Tag_values := [] |}.
Proof.
  rewrite <- CountString_colons, Parse_unfold. intros H.
  by rewrite (Split_byte_absent ":" tag H).
Qed.

(** C7: [Parse] fails, with the format error, exactly on the strings that
    hold two or more [':']; a string with at most one [':'] is accepted,
    and a string without [':'] parses to the label named by the whole
    string. *)
Theorem Parse_FormatError_iff tag :
  (Parse tag = Err (FormatError tag) ↔ (2 ≤ colons tag)%nat)
  ∧ (is_Ok (Parse tag) = false ↔ (2 ≤ colons tag)%nat)
  ∧ ((colons tag ≤ 1)%nat → is_Ok (Parse tag) = true)
  ∧ (colons tag = O → Parse tag = Ok {| Tag_name := tag; Tag_values := [] |}).
Proof.
  rewrite <- CountString_colons, Parse_unfold.
  pose proof (Split_byte_length ":" tag) as Hlen.
  pose proof (Split_byte_absent ":" tag) as Habs.
  destruct (strings.CountString tag ":") as [|[|n]] eqn:Hn.
  - rewrite Habs by done. repeat split; intros; try done; lia.
  - destruct (strings.Split tag ":") as [|? [|? [|? ?]]]; try done.
    repeat split; intros; try done; lia.
  - destruct (strings.Split tag ":") as [|? [|? [|? ?]]]; try done.
    repeat split; intros; try done; lia.
Qed.

Lemma Parse_FormatError_iff_witness :
  colons "a:b" = 1%nat ∧ is_Ok (Parse "a:b") = true
  ∧ colons "label" = O
  ∧ Parse "label" = Ok {| Tag_name := "label"; Tag_values := [] |}.
Proof.
  split; [reflexivity|]. split.
  - apply (proj1 (proj2 (proj2 (Parse_FormatError_iff "a:b")))).
    vm_compute. lia.
  - split; [reflexivity|].
    apply (proj2 (proj2 (proj2 (Parse_FormatError_iff "label")))).
    reflexivity.
Defined.

(** C3: on a string with one [':'] the name is the part before the colon,
    but the values are not the comma-separated pieces of the part after
    it: [Parse] splits the text [","] at the part after the colon, and so
    returns the one value [","] (two empty values when that part is
    [","]).  [Parse("a:b,c")] has the single value [","]. *)
Theorem Parse_one_colon tag m :
  colons tag = 1%nat →
  strings.Index tag ":" = Some m →
  Parse tag
  = Ok {| Tag_name := strings.take m tag;
          Tag_values :=
            if bool_decide (strings.drop (m + 1) tag = ","%string)
            then [""; ""]%string else [","]%string |}.
Proof.
  rewrite <- CountString_colons. intros H1 Hm.
  destruct (Split_byte_once ":" tag H1) as (m' & Hm' & HS & _).
  rewrite Hm in Hm'. injection Hm' as <-.
  by rewrite Parse_unfold, HS, Split_comma_at.
Qed.

Lemma Parse_one_colon_witness :
  colons "a:b,c" = 1%nat
  ∧ strings.Index "a:b,c" ":" = Some 1%nat
  ∧ Parse "a:b,c" = Ok {| Tag_name := "a"; Tag_values := [","]%string |}.
Proof.
  split; [reflexivity|]. split; [reflexivity|].
  apply (Parse_one_colon "a:b,c" 1); reflexivity.
Defined.

(** ** Accessors *)

Lemma Tag_Values_eq t : Tag_Values t = Tag_values t.
Proof. unfold Tag_Values. by destruct (Tag_values t). Qed.

(** C5: [IsSingleValue] is the same test as [IsLabel]: it holds exactly
    for the tags without values, and is [false] for a tag with one
    value. *)
Theorem Tag_IsSingleValue_is_IsLabel :
  (∀ t, Tag_IsSingleValue t = Tag_IsLabel t)
  ∧ (∀ name value,
       Tag_IsSingleValue {| Tag_name := name; Tag_values := [value] |} = false)
  ∧ Tag_IsSingleValue {| Tag_name := "single"; Tag_values := ["value"]%string |}
    = false.
Proof. done. Qed.

(** ** Constructors *)

Section Constructors.

Variable rt : Runtime.

Lemma maps_Values_empty {V} (m : gmap string V) :
  m = ∅ → maps_Values rt m = [].
Proof.
  intros ->. unfold maps_Values.
  induction (rt V ∅) as [|k l IH]; [done|].
  simpl. by rewrite lookup_empty.
Qed.

Lemma New_Ok name values :
  strings.TrimSpace name ≠ EmptyString →
  New rt name values
  = Ok {| Tag_name := name;
          Tag_values :=
            maps_Values rt
              (maps_DeleteFunc (foldl (λ m v, <[v := v]> m) ∅ values)
                 (λ key _, bool_decide (strings.TrimSpace key = EmptyString)))
       |}.
Proof. intros H. unfold New. by rewrite bool_decide_eq_false_2. Qed.

Lemma New_Err name values :
  strings.TrimSpace name = EmptyString →
  New rt name values = Err (Errorf "name required").
Proof. intros H. unfold New. by rewrite bool_decide_eq_true_2. Qed.

Lemma NewLabel_inv name t :
  NewLabel rt name = Ok t → t = {| Tag_name := name; Tag_values := [] |}.
Proof.
  unfold NewLabel, New. case_bool_decide; [done|].
  intros [= <-]. f_equal. apply maps_Values_empty.
  unfold maps_DeleteFunc. simpl. apply map_filter_empty.
Qed.

(** C2, as amended: a label built by [NewLabel] whose name holds no [':']
    is read back by [Parse] from its [String]: same name, same (empty)
    values. *)
Theorem Parse_String_NewLabel name t :
  NewLabel rt name = Ok t →
  colons name = O →
  ∃ t', Parse (Tag_String t) = Ok t'
        ∧ Tag_Name t' = Tag_Name t
        ∧ Tag_Values t' ≡ₚ Tag_Values t.
Proof.
  intros Ht Hc. apply NewLabel_inv in Ht as ->.
  exists {| Tag_name := name; Tag_values := [] |}.
  split; [|done].
  change (Tag_String {| Tag_name := name; Tag_values := [] |}) with name.
  by apply Parse_no_colon.
Qed.

End Constructors.

Lemma Parse_String_NewLabel_witness :
  NewLabel listing_order "critical"
  = Ok {| Tag_name := "critical"; Tag_values := [] |}
  ∧ colons "critical" = O
  ∧ ∃ t', Parse (Tag_String {| Tag_name := "critical"; Tag_values := [] |})
          = Ok t'
          ∧ Tag_Name t' = "critical"%string
          ∧ Tag_Values t' ≡ₚ [].
Proof.
  split; [vm_compute; reflexivity|]. split; [reflexivity|].
  apply (Parse_String_NewLabel listing_order "critical");
    [vm_compute; reflexivity | reflexivity].
Defined.

(** C2, as stated, fails on a label whose name holds a [':']: the name is
    cut at the colon when the text is read back. *)
Lemma Parse_String_colon_name :
  ∃ t, NewLabel listing_order "a:b" = Ok t
       ∧ ¬ ∃ t', Parse (Tag_String t) = Ok t'
                 ∧ Tag_Name t' = Tag_Name t
                 ∧ Tag_Values t' ≡ₚ Tag_Values t.
Proof.
  exists {| Tag_name := "a:b"; Tag_values := [] |}.
  split; [vm_compute; reflexivity|].
  intros (t' & HP & Hn & _).
  vm_compute in HP. injection HP as <-. discriminate Hn.
Qed.

(** ** Runtimes *)

Lemma fair_listing_order : fair listing_order.
Proof. intros V m. reflexivity. Defined.

Lemma elem_of_keys {V} (m : gmap string V) k :
  k ∈ (map_to_list m).*1 ↔ is_Some (m !! k).
Proof.
  rewrite list_elem_of_fmap. split.
  - intros ([k' v] & -> & Hin). apply elem_of_map_to_list in Hin. eauto.
  - intros [v Hv]. exists (k, v). by rewrite elem_of_map_to_list.
Qed.

Lemma fair_order_by pref : NoDup pref → fair (order_by pref).
Proof.
  intros Hpref V m. unfold order_by.
  apply NoDup_Permutation.
  - apply NoDup_app. split_and!.
    + apply NoDup_ListNoDup, List.NoDup_filter. by apply NoDup_ListNoDup.
    + intros k Hk Hk'.
      apply list_elem_of_In, List.filter_In in Hk as [Hk _].
      apply list_elem_of_In, List.filter_In in Hk' as [_ Hk'].
      apply negb_true_iff, bool_decide_eq_false in Hk'.
      by apply Hk', list_elem_of_In.
    + apply NoDup_ListNoDup, List.NoDup_filter, NoDup_ListNoDup.
      apply NoDup_fst_map_to_list.
  - apply NoDup_fst_map_to_list.
  - intros k. rewrite elem_of_app, !list_elem_of_In, !List.filter_In.
    rewrite <- !list_elem_of_In, bool_decide_eq_true, negb_true_iff.
    rewrite bool_decide_eq_false, elem_of_keys.
    destruct (decide (k ∈ pref)); tauto.
Qed.

Section FairRuntime.

Variable rt : Runtime.
Hypothesis rt_fair : fair rt.

(** The walk yields the values of the map, each entry once. *)
Lemma maps_Values_perm {V} (m : gmap string V) :
  maps_Values rt m ≡ₚ (map_to_list m).*2.
Proof.
  unfold maps_Values. rewrite (rt_fair V m).
  assert (∀ l : list (string * V),
            (∀ kv, kv ∈ l → m !! kv.1 = Some kv.2) →
            omap (λ k, m !! k) l.*1 = l.*2) as H.
  { induction l as [|[k v] l IH]; intros Hl; [done|].
    pose proof (Hl (k, v) ltac:(left)) as Hkv. simpl in Hkv.
    simpl. rewrite Hkv. simpl. f_equal.
    apply IH. intros kv Hkv'. apply Hl. by right. }
  rewrite H; [done|].
  intros [k v] Hkv. by apply elem_of_map_to_list.
Qed.

(** *** [New] *)

Lemma uniqueValues_lookup (values : list string) (m0 : gmap string string) k :
  foldl (λ m v, <[v := v]> m) m0 values !! k
  = if decide (k ∈ values) then Some k else m0 !! k.
Proof.
  revert m0. induction values as [|v values IH]; intros m0; cbn [foldl].
  - rewrite decide_False; [done|apply not_elem_of_nil].
  - rewrite IH. destruct (decide (k ∈ values)) as [Hin|Hin].
    + rewrite decide_True; [done|by right].
    + destruct (decide (k = v)) as [->|Hne].
      * rewrite decide_True by left. by rewrite lookup_insert_eq.
      * rewrite decide_False.
        -- by rewrite lookup_insert_ne.
        -- rewrite elem_of_cons. naive_solver.
Qed.

Lemma New_spec name values :
  strings.TrimSpace name ≠ EmptyString →
  ∃ t, New rt name values = Ok t
       ∧ Tag_Name t = name
       ∧ NoDup (Tag_Values t)
       ∧ (∀ v, v ∈ Tag_Values t
               ↔ v ∈ values ∧ strings.TrimSpace v ≠ EmptyString)
       ∧ Tag_Values t
         ≡ₚ remove_dups
              (filter (λ v, strings.TrimSpace v ≠ EmptyString) values).
Proof.
  intros Hname. eexists. split; [by apply New_Ok|].
  split; [done|]. rewrite Tag_Values_eq. cbn [Tag_values].
  set (m := maps_DeleteFunc _ _).
  assert (∀ k v, m !! k = Some v
                 ↔ v = k ∧ k ∈ values ∧ strings.TrimSpace k ≠ EmptyString)
    as Hm.
  { intros k v. unfold m, maps_DeleteFunc.
    rewrite map_lookup_filter_Some, uniqueValues_lookup, lookup_empty.
    cbn [fst snd]. rewrite bool_decide_eq_false.
    case_decide; naive_solver. }
  assert (maps_Values rt m = rt _ m) as ->.
  { unfold maps_Values.
    assert (∀ l : list string,
              (∀ k, k ∈ l → m !! k = Some k) →
              omap (λ k, m !! k) l = l) as H.
    { induction l as [|k l IH]; intros Hl; [done|].
      simpl. rewrite Hl by left. simpl. f_equal.
      apply IH. intros k' Hk'. apply Hl. by right. }
    apply H. intros k Hk. rewrite (rt_fair _ m), elem_of_keys in Hk.
    destruct Hk as [v Hv]. rewrite Hv. f_equal. by apply Hm in Hv as [-> _]. }
  assert (∀ v, v ∈ rt _ m
               ↔ v ∈ values ∧ strings.TrimSpace v ≠ EmptyString) as Hel.
  { intros v. rewrite (rt_fair _ m), elem_of_keys. split.
    - intros [x Hx]. by apply Hm in Hx as (_ & ? & ?).
    - intros [? ?]. exists v. by apply Hm. }
  assert (NoDup (rt _ m)) as Hnd.
  { rewrite (rt_fair _ m). apply NoDup_fst_map_to_list. }
  split_and!; [done|done|].
  apply NoDup_Permutation; [done|apply NoDup_remove_dups|].
  intros v. rewrite Hel, elem_of_remove_dups, list_elem_of_filter.
  naive_solver.
Qed.

(** C8, as amended: [New] with a name that is not empty and not white
    space only succeeds, keeps the name, and its values are, up to order,
    the distinct input values that are not empty and not white space
    only. *)
Theorem New_value_set name values :
  strings.TrimSpace name ≠ EmptyString →
  ∃ t, New rt name values = Ok t
       ∧ Tag_Name t = name
       ∧ NoDup (Tag_Values t)
       ∧ (∀ v, v ∈ Tag_Values t
               ↔ v ∈ values ∧ strings.TrimSpace v ≠ EmptyString)
       ∧ Tag_Values t
         ≡ₚ remove_dups
              (filter (λ v, strings.TrimSpace v ≠ EmptyString) values).
Proof. apply New_spec. Qed.

(** The example of the specification's dedup property, for every walk. *)
Example New_dedup :
  ∃ t, New rt "x" ["a"; "a"; "b"; ""]%string = Ok t
       ∧ Tag_Values t ≡ₚ ["a"; "b"]%string.
Proof.
  destruct (New_spec "x" ["a"; "a"; "b"; ""]%string) as (t & Ht & _ & _ & _ & Hp);
    [by vm_compute|].
  exists t. split; [done|]. rewrite Hp. by vm_compute.
Qed.

End FairRuntime.

Lemma New_value_set_witness :
  fair listing_order
  ∧ strings.TrimSpace "x" ≠ EmptyString
  ∧ ∃ t, New listing_order "x" ["a"; "a"; "b"; ""]%string = Ok t
         ∧ Tag_Name t = "x"%string
         ∧ NoDup (Tag_Values t)
         ∧ (∀ v, v ∈ Tag_Values t
                 ↔ v ∈ ["a"; "a"; "b"; ""]%string
                   ∧ strings.TrimSpace v ≠ EmptyString)
         ∧ Tag_Values t
           ≡ₚ remove_dups
                (filter (λ v, strings.TrimSpace v ≠ EmptyString)
                   ["a"; "a"; "b"; ""]%string).
Proof.
  split; [exact fair_listing_order|].
  split; [vm_compute; discriminate|].
  apply (New_value_set listing_order fair_listing_order "x").
  vm_compute; discriminate.
Defined.

(** C8, as stated, fails on a name that is not empty but white space
    only: [New] rejects it. *)
Lemma New_blank_name :
  ¬ (" "%string ≠ EmptyString →
     ∃ t, New listing_order " " ["a"; "a"; "b"; ""]%string = Ok t
          ∧ Tag_Values t ≡ₚ ["a"; "b"]%string).
Proof.
  intros H. destruct H as (t & Ht & _); [done|].
  vm_compute in Ht. discriminate Ht.
Qed.

(** ** Groups: the invariant *)

Lemma TagGroup_Add_app g tags1 tags2 :
  TagGroup_Add g (tags1 ++ tags2) = TagGroup_Add (TagGroup_Add g tags1) tags2.
Proof. apply foldl_app. Qed.

Lemma TagGroup_Add_cons g t tags :
  TagGroup_Add g (t :: tags)
  = TagGroup_Add (set_tags g (<[Tag_name t := t]> (TagGroup_tags g))) tags.
Proof. reflexivity. Qed.

Lemma TagGroup_Add_inv g tags :
  TagGroup_inv g → TagGroup_inv (TagGroup_Add g tags).
Proof.
  revert g. induction tags as [|t tags IH]; intros g Hg; [done|].
  rewrite TagGroup_Add_cons. apply IH.
  unfold TagGroup_inv. cbn [set_tags TagGroup_tags].
  by apply map_Forall_insert_2.
Qed.

(** A name that is not added keeps its entry. *)
Lemma TagGroup_Add_lookup_other g tags n :
  n ∉ Tag_name <$> tags →
  TagGroup_tags (TagGroup_Add g tags) !! n = TagGroup_tags g !! n.
Proof.
  revert g. induction tags as [|t tags IH]; intros g Hn; [done|].
  rewrite fmap_cons, not_elem_of_cons in Hn. destruct Hn as [Hne Hn].
  rewrite TagGroup_Add_cons, IH by done.
  cbn [set_tags TagGroup_tags]. by rewrite lookup_insert_ne.
Qed.

(** The last tag of a name is the one that stays. *)
Lemma TagGroup_Add_lookup_last g tags1 t tags2 :
  Tag_name t ∉ Tag_name <$> tags2 →
  TagGroup_tags (TagGroup_Add g (tags1 ++ t :: tags2)) !! Tag_name t = Some t.
Proof.
  intros Hn.
  rewrite TagGroup_Add_app, TagGroup_Add_cons, TagGroup_Add_lookup_other by done.
  cbn [set_tags TagGroup_tags]. apply lookup_insert_eq.
Qed.

Lemma TagGroup_RemoveFunc_inv rt g fn :
  TagGroup_inv g → TagGroup_inv (TagGroup_RemoveFunc rt g fn).
Proof.
  unfold TagGroup_RemoveFunc. generalize (TagGroup_Tags rt g) as l.
  intros l. revert g. induction l as [|t l IH]; intros g Hg; [done|].
  cbn [foldl]. apply IH. destruct (fn g t); [|done].
  unfold TagGroup_inv. cbn [set_tags TagGroup_tags].
  by apply map_Forall_delete.
Qed.

(** [RemoveFunc] only deletes: what is left was there before. *)
Lemma TagGroup_RemoveFunc_subseteq rt g fn :
  TagGroup_tags (TagGroup_RemoveFunc rt g fn) ⊆ TagGroup_tags g.
Proof.
  unfold TagGroup_RemoveFunc. generalize (TagGroup_Tags rt g) as l.
  intros l. revert g. induction l as [|t l IH]; intros g; [done|].
  cbn [foldl]. etrans; [apply IH|]. destruct (fn g t); [|done].
  cbn [set_tags TagGroup_tags]. apply delete_subseteq.
Qed.

Lemma TagGroup_SortFunc_id rt g fn : TagGroup_SortFunc rt g fn = g.
Proof. reflexivity. Qed.

Lemma TagGroup_SortNames_id rt g desc : TagGroup_SortNames rt g desc = g.
Proof. reflexivity. Qed.

Lemma TagGroup_Rename_tags g newName g' :
  TagGroup_Rename g newName = Ok g' → TagGroup_tags g' = TagGroup_tags g.
Proof. unfold TagGroup_Rename. case_bool_decide; [done|]. by intros [= <-]. Qed.

Lemma NewGroup_Ok name tags :
  strings.TrimSpace name ≠ EmptyString →
  NewGroup name tags
  = Ok (TagGroup_Add {| TagGroup_name := name; TagGroup_tags := ∅ |} tags).
Proof.
  intros H. unfold NewGroup, TagGroup_Rename.
  by rewrite bool_decide_eq_false_2.
Qed.

Lemma NewGroup_inv name tags g :
  NewGroup name tags = Ok g → TagGroup_inv g.
Proof.
  unfold NewGroup, TagGroup_Rename. case_bool_decide; [done|].
  intros [= <-]. apply TagGroup_Add_inv.
  unfold TagGroup_inv. cbn [set_tags TagGroup_tags]. apply map_Forall_empty.
Qed.

Lemma reachable_inv g : reachable g → TagGroup_inv g.
Proof.
  induction 1 as [name tags g HN | g newName g' _ IH HR | g tags _ IH
                 | rt g tags _ _ IH | rt g names _ _ IH | rt g values _ _ IH
                 | rt g fn _ _ IH | rt g desc _ _ IH | rt g fn _ _ IH].
  - by eapply NewGroup_inv.
  - unfold TagGroup_inv. by rewrite (TagGroup_Rename_tags _ _ _ HR).
  - by apply TagGroup_Add_inv.
  - by apply TagGroup_RemoveFunc_inv.
  - by apply TagGroup_RemoveFunc_inv.
  - by apply TagGroup_RemoveFunc_inv.
  - by apply TagGroup_RemoveFunc_inv.
  - done.
  - done.
Qed.

(** Under the invariant the names of the members are the keys. *)
Lemma members_names g :
  TagGroup_inv g →
  Tag_name <$> members g = (map_to_list (TagGroup_tags g)).*1.
Proof.
  intros Hg. unfold members.
  assert (∀ l : list (string * Tag),
            (∀ kv, kv ∈ l → Tag_name kv.2 = kv.1) →
            Tag_name <$> l.*2 = l.*1) as H.
  { induction l as [|[k t] l IH]; intros Hl; [done|].
    pose proof (Hl (k, t) ltac:(left)) as Hkt. simpl in Hkt.
    simpl. rewrite Hkt. f_equal. apply IH. intros kv Hkv. apply Hl. by right. }
  apply H. intros [k t] Hkt. apply elem_of_map_to_list in Hkt. by apply Hg.
Qed.

Lemma members_names_NoDup g :
  TagGroup_inv g → NoDup (Tag_name <$> members g).
Proof. intros Hg. rewrite members_names by done. apply NoDup_fst_map_to_list. Qed.

Lemma elem_of_members g t :
  t ∈ members g ↔ ∃ k, TagGroup_tags g !! k = Some t.
Proof.
  unfold members. rewrite list_elem_of_fmap. split.
  - intros ([k t'] & -> & Hin). apply elem_of_map_to_list in Hin. eauto.
  - intros [k Hk]. exists (k, t). by rewrite elem_of_map_to_list.
Qed.

Lemma elem_of_members_inv g t :
  TagGroup_inv g →
  t ∈ members g ↔ TagGroup_tags g !! Tag_name t = Some t.
Proof.
  intros Hg. rewrite elem_of_members. split; [|eauto].
  intros [k Hk]. by rewrite (Hg _ _ Hk).
Qed.

Lemma TagGroup_Tags_names_NoDup rt g :
  fair rt → TagGroup_inv g → NoDup (Tag_Name <$> TagGroup_Tags rt g).
Proof.
  intros Hrt Hg. unfold TagGroup_Tags.
  rewrite (maps_Values_perm rt Hrt). by apply members_names_NoDup.
Qed.

(** C9: every group that can be built holds at most one member per name:
    members are stored under their names, and [Tags] lists no name twice.
    The groups that can be built are those of [NewGroup] followed by
    [Rename], [Add], the four removals and the two sorts in any number
    and order, so each of these keeps the property.  [Add] puts a tag in
    the place of a member of the same name: of the tags added under one
    name the last one stays, and members of other names are untouched. *)
Theorem TagGroup_one_member_per_name :
  (∀ g, reachable g →
        TagGroup_inv g
        ∧ ∀ rt, fair rt → NoDup (Tag_Name <$> TagGroup_Tags rt g))
  ∧ (∀ g tags1 t tags2,
        Tag_name t ∉ Tag_name <$> tags2 →
        TagGroup_tags (TagGroup_Add g (tags1 ++ t :: tags2)) !! Tag_name t
        = Some t)
  ∧ (∀ g tags n,
        n ∉ Tag_name <$> tags →
        TagGroup_tags (TagGroup_Add g tags) !! n = TagGroup_tags g !! n).
Proof.
  split_and!.
  - intros g Hg. apply reachable_inv in Hg. split; [done|].
    intros rt Hrt. by apply TagGroup_Tags_names_NoDup.
  - apply TagGroup_Add_lookup_last.
  - apply TagGroup_Add_lookup_other.
Qed.

Lemma NewGroup_group_of name tags :
  strings.TrimSpace name ≠ EmptyString →
  NewGroup name tags = Ok (group_of name tags).
Proof. apply NewGroup_Ok. Qed.

Lemma TagGroup_one_member_per_name_witness :
  reachable (TagGroup_Add (TagGroup_Add (group_of "g" []) [tag_x1]) [tag_x2])
  ∧ TagGroup_inv
      (TagGroup_Add (TagGroup_Add (group_of "g" []) [tag_x1]) [tag_x2])
  ∧ NoDup (Tag_Name <$>
             TagGroup_Tags listing_order
               (TagGroup_Add (TagGroup_Add (group_of "g" []) [tag_x1])
                  [tag_x2]))
  ∧ TagGroup_Tags listing_order
      (TagGroup_Add (TagGroup_Add (group_of "g" []) [tag_x1]) [tag_x2])
    = [tag_x2]
  ∧ TagGroup_tags (TagGroup_Add (group_of "g" []) ([tag_x1] ++ tag_x2 :: []))
    !! "x"%string = Some tag_x2.
Proof.
  assert (reachable
            (TagGroup_Add (TagGroup_Add (group_of "g" []) [tag_x1]) [tag_x2]))
    as Hr.
  { do 2 apply reach_Add. apply (reach_NewGroup "g" []).
    apply NewGroup_group_of. vm_compute. discriminate. }
  split; [exact Hr|].
  split; [exact (proj1 (proj1 TagGroup_one_member_per_name _ Hr))|].
  split.
  { exact (proj2 (proj1 TagGroup_one_member_per_name _ Hr)
             listing_order fair_listing_order). }
  split; [vm_compute; reflexivity|].
  apply (proj1 (proj2 TagGroup_one_member_per_name)
           (group_of "g" []) [tag_x1] tag_x2 []).
  apply not_elem_of_nil.
Defined.

(** ** Groups: queries *)

Lemma List_filter_length_perm {A} (f : A → bool) (l l' : list A) :
  l ≡ₚ l' → length (List.filter f l) = length (List.filter f l').
Proof.
  induction 1 as [|x l l' _ IH|x y l|l1 l2 l3 _ IH1 _ IH2]; simpl.
  - done.
  - destruct (f x); simpl; congruence.
  - destruct (f x), (f y); done.
  - congruence.
Qed.

Lemma List_filter_stdpp {A} (f : A → bool) (P : A → Prop)
    `{!∀ x, Decision (P x)} (l : list A) :
  (∀ x, f x = true ↔ P x) → List.filter f l = filter P l.
Proof.
  intros Hf. induction l as [|x l IH]; [done|].
  simpl. rewrite filter_cons, IH.
  destruct (f x) eqn:Hx, (decide (P x)) as [HP|HP]; try done.
  - by apply Hf in Hx.
  - apply Hf in HP. congruence.
Qed.

Lemma slices_Contains_true `{EqDecision A} (s : list A) (v : A) :
  slices.Contains s v = true ↔ v ∈ s.
Proof.
  unfold slices.Contains, slices.ContainsFunc.
  rewrite existsb_exists. split.
  - intros (x & Hx & Hxv). apply bool_decide_eq_true in Hxv as ->.
    by apply list_elem_of_In.
  - intros Hv. exists v. split; [by apply list_elem_of_In|].
    by apply bool_decide_eq_true.
Qed.

Lemma slices_ContainsFunc_true {A} (s : list A) (f : A → bool) :
  slices.ContainsFunc s f = true ↔ ∃ x, x ∈ s ∧ f x = true.
Proof.
  unfold slices.ContainsFunc. rewrite existsb_exists.
  by setoid_rewrite list_elem_of_In.
Qed.

Lemma NoDup_fmap_elem_inj {A B} (f : A → B) (l : list A) x y :
  NoDup (f <$> l) → x ∈ l → y ∈ l → f x = f y → x = y.
Proof.
  induction l as [|a l IH]; intros Hnd Hx Hy Hxy.
  - by apply elem_of_nil in Hx.
  - rewrite fmap_cons, NoDup_cons in Hnd. destruct Hnd as [Ha Hnd].
    apply elem_of_cons in Hx as [->|Hx], Hy as [->|Hy]; [done| | |by apply IH].
    + exfalso. apply Ha. rewrite Hxy. by apply list_elem_of_fmap_2.
    + exfalso. apply Ha. rewrite <- Hxy. by apply list_elem_of_fmap_2.
Qed.

Lemma filter_eq_length_le_1 {A B} `{EqDecision B} (f : A → B) (l : list A) b :
  NoDup (f <$> l) → length (filter (λ x, f x = b) l) ≤ 1.
Proof.
  induction l as [|a l IH]; intros Hnd; [simpl; lia|].
  rewrite fmap_cons, NoDup_cons in Hnd. destruct Hnd as [Ha Hnd].
  rewrite filter_cons. destruct (decide (f a = b)) as [<-|Hne]; [|by apply IH].
  assert (filter (λ x, f x = f a) l = []) as ->; [|simpl; lia].
  destruct (filter (λ x, f x = f a) l) as [|y k] eqn:Hk; [done|].
  assert (y ∈ filter (λ x, f x = f a) l) as Hy by (rewrite Hk; left).
  apply list_elem_of_filter in Hy as [Hy1 Hy2].
  exfalso. apply Ha. rewrite <- Hy1. by apply list_elem_of_fmap_2.
Qed.

Section Queries.

Variable rt : Runtime.
Hypothesis rt_fair : fair rt.

Lemma TagGroup_Tags_perm g : TagGroup_Tags rt g ≡ₚ members g.
Proof. apply (maps_Values_perm rt rt_fair). Qed.

Lemma TagGroup_FindFunc_length g fn :
  length (TagGroup_FindFunc rt g fn) = length (List.filter fn (members g)).
Proof. apply List_filter_length_perm, TagGroup_Tags_perm. Qed.

Lemma TagGroup_ContainsNames_true g names :
  TagGroup_ContainsNames rt g names = true
  ↔ length names = length (filter (λ t, Tag_Name t ∈ names) (members g)).
Proof.
  unfold TagGroup_ContainsNames, TagGroup_FindNames.
  rewrite Nat.eqb_eq, TagGroup_FindFunc_length.
  rewrite (List_filter_stdpp _ (λ t, Tag_Name t ∈ names)); [done|].
  intros t. apply slices_Contains_true.
Qed.

(** C10: [ContainsNames] compares two counts: it returns [true] exactly
    when there are as many supplied names, repeated ones counted each
    time, as there are members whose name is among them.  So for a group
    with a member named [n], [ContainsNames(n, n)] is [false]. *)
Theorem TagGroup_ContainsNames_counts g :
  (∀ names,
     TagGroup_ContainsNames rt g names = true
     ↔ length names = length (filter (λ t, Tag_Name t ∈ names) (members g)))
  ∧ (TagGroup_inv g →
     ∀ n t, t ∈ members g → Tag_Name t = n →
            TagGroup_ContainsNames rt g [n; n] = false).
Proof.
  split; [apply TagGroup_ContainsNames_true|].
  intros Hg n t _ _. apply not_true_iff_false.
  rewrite TagGroup_ContainsNames_true.
  rewrite (list_filter_iff _ (λ t, Tag_name t = n)).
  - pose proof (filter_eq_length_le_1 Tag_name (members g) n
                  (members_names_NoDup g Hg)).
    simpl. lia.
  - intros t'. unfold Tag_Name. rewrite !elem_of_cons, elem_of_nil. tauto.
Qed.

(** *** [Contains] *)

Lemma Contains_match_true tags m :
  Contains_match tags m = true ↔ ∃ t, t ∈ tags ∧ same_tag m t.
Proof.
  unfold Contains_match, same_tag, slices.Equal.
  rewrite slices_ContainsFunc_true.
  by setoid_rewrite andb_true_iff; setoid_rewrite bool_decide_eq_true.
Qed.

Lemma TagGroup_Contains_length g tags :
  TagGroup_Contains rt g tags = true
  ↔ length tags = length (List.filter (Contains_match tags) (members g)).
Proof.
  unfold TagGroup_Contains.
  by rewrite Nat.eqb_eq, TagGroup_FindFunc_length.
Qed.

Lemma TagGroup_Contains_true g tags :
  TagGroup_inv g →
  TagGroup_Contains rt g tags = true
  ↔ NoDup (Tag_name <$> tags)
    ∧ ∀ t, t ∈ tags → ∃ m, m ∈ members g ∧ same_tag m t.
Proof.
  intros Hg. rewrite TagGroup_Contains_length.
  set (F := List.filter (Contains_match tags) (members g)).
  assert (∀ m, m ∈ F ↔ m ∈ members g ∧ ∃ t, t ∈ tags ∧ same_tag m t) as HF.
  { intros m. unfold F.
    by rewrite list_elem_of_In, List.filter_In, <- list_elem_of_In,
      Contains_match_true. }
  assert (NoDup (Tag_name <$> F)) as HFnd.
  { unfold F.
    rewrite (List_filter_stdpp _ (λ m, Contains_match tags m = true)) by done.
    apply (sublist_NoDup _ (Tag_name <$> members g)).
    - by apply members_names_NoDup.
    - apply fmap_sublist, sublist_filter. }
  split.
  - intros Hlen.
    assert (Tag_name <$> F ≡ₚ Tag_name <$> tags) as Hperm.
    { apply submseteq_length_Permutation.
      - apply NoDup_submseteq; [done|].
        intros n (m & -> & Hm)%list_elem_of_fmap.
        apply HF in Hm as (_ & t & Ht & Hmt & _).
        rewrite Hmt. by apply list_elem_of_fmap_2.
      - rewrite !length_fmap. lia. }
    assert (NoDup (Tag_name <$> tags)) as Hnd by by rewrite <- Hperm.
    split; [done|]. intros t Ht.
    assert (Tag_name t ∈ Tag_name <$> F) as (m & Hn & Hm)%list_elem_of_fmap.
    { rewrite Hperm. by apply list_elem_of_fmap_2. }
    apply HF in Hm as (Hm & t' & Ht' & Hmt' & Hv).
    assert (t' = t) as ->.
    { eapply NoDup_fmap_elem_inj; [exact Hnd|done|done|congruence]. }
    exists m. by repeat split.
  - intros [Hnd Hall].
    rewrite <- (length_fmap Tag_name tags), <- (length_fmap Tag_name F).
    apply Permutation_length, NoDup_Permutation; [done|done|].
    intros n. rewrite !list_elem_of_fmap. split.
    + intros (t & -> & Ht). destruct (Hall t Ht) as (m & Hm & Hmt).
      exists m. split; [symmetry; apply Hmt|]. apply HF. eauto.
    + intros (m & -> & Hm). apply HF in Hm as (_ & t & Ht & Hmt & _). eauto.
Qed.

(** C4, as amended: [Contains(ts)] returns [true] exactly when no two tags
    of [ts] share a name and every tag of [ts] has a member with the same
    name and the same values in the same order. *)
Theorem TagGroup_Contains_iff g tags :
  TagGroup_inv g →
  TagGroup_Contains rt g tags = true
  ↔ NoDup (Tag_name <$> tags)
    ∧ ∀ t, t ∈ tags → ∃ m, m ∈ members g ∧ same_tag m t.
Proof. apply TagGroup_Contains_true. Qed.

End Queries.

Lemma group_of_inv name tags : TagGroup_inv (group_of name tags).
Proof. apply TagGroup_Add_inv, map_Forall_empty. Qed.

Lemma TagGroup_ContainsNames_counts_witness :
  fair listing_order
  ∧ TagGroup_inv (group_of "g" [tag_x1; tag_y2])
  ∧ tag_x1 ∈ members (group_of "g" [tag_x1; tag_y2])
  ∧ Tag_Name tag_x1 = "x"%string
  ∧ TagGroup_ContainsNames listing_order (group_of "g" [tag_x1; tag_y2])
      ["x"; "x"]%string = false.
Proof.
  split; [exact fair_listing_order|].
  split; [apply group_of_inv|].
  assert (tag_x1 ∈ members (group_of "g" [tag_x1; tag_y2])) as Hin.
  { apply elem_of_members. exists "x"%string. vm_compute. reflexivity. }
  split; [exact Hin|]. split; [reflexivity|].
  apply (proj2 (TagGroup_ContainsNames_counts listing_order fair_listing_order
                  (group_of "g" [tag_x1; tag_y2]))
           (group_of_inv _ _) "x"%string tag_x1 Hin).
  reflexivity.
Defined.

Example TagGroup_ContainsNames_present :
  TagGroup_ContainsNames listing_order (group_of "g" [tag_x1; tag_y2])
    ["x"; "y"]%string = true.
Proof. vm_compute. reflexivity. Qed.

Lemma TagGroup_Contains_iff_witness :
  fair listing_order
  ∧ TagGroup_inv (group_of "g" [tag_x12])
  ∧ (TagGroup_Contains listing_order (group_of "g" [tag_x12]) [tag_x12] = true
     ↔ NoDup (Tag_name <$> [tag_x12])
       ∧ ∀ t, t ∈ [tag_x12] →
              ∃ m, m ∈ members (group_of "g" [tag_x12]) ∧ same_tag m t).
Proof.
  split; [exact fair_listing_order|].
  split; [apply group_of_inv|].
  apply (TagGroup_Contains_iff listing_order fair_listing_order).
  apply group_of_inv.
Defined.

(** The specification's example: a group holding [x:1,2]. *)
Example TagGroup_Contains_exact_values :
  TagGroup_Contains listing_order (group_of "g" [tag_x12]) [tag_x12] = true
  ∧ TagGroup_Contains listing_order (group_of "g" [tag_x12])
      [{| Tag_name := "x"; Tag_values := ["1"; "2"; "9"]%string |}] = false
  ∧ TagGroup_ContainsValues listing_order (group_of "g" [tag_x12])
      ["2"; "9"]%string = true.
Proof. vm_compute. done. Qed.

(** C4, as stated, fails in two ways, both on the group that holds
    [x:1,2]: a tag supplied twice is counted twice and found once, and a
    tag whose values come in another order is not found. *)
Lemma TagGroup_Contains_count_and_order :
  NewGroup "g" [tag_x12] = Ok (group_of "g" [tag_x12])
  ∧ ¬ (TagGroup_Contains listing_order (group_of "g" [tag_x12])
         [tag_x12; tag_x12] = true
       ↔ ∀ t, t ∈ [tag_x12; tag_x12] →
              ∃ m, m ∈ members (group_of "g" [tag_x12])
                   ∧ same_tag_up_to_order m t)
  ∧ ¬ (TagGroup_Contains listing_order (group_of "g" [tag_x12])
         [tag_x21] = true
       ↔ ∀ t, t ∈ [tag_x21] →
              ∃ m, m ∈ members (group_of "g" [tag_x12])
                   ∧ same_tag_up_to_order m t).
Proof.
  assert (tag_x12 ∈ members (group_of "g" [tag_x12])) as Hin.
  { apply elem_of_members. exists "x"%string. vm_compute. reflexivity. }
  split; [vm_compute; reflexivity|]. split.
  - intros [_ H]. assert (false = true) as Hf; [|discriminate Hf].
    apply H. intros t Ht. exists tag_x12. split; [done|].
    rewrite !elem_of_cons, elem_of_nil in Ht.
    assert (t = tag_x12) as -> by tauto. done.
  - intros [_ H]. assert (false = true) as Hf; [|discriminate Hf].
    apply H. intros t Ht. exists tag_x12. split; [done|].
    apply list_elem_of_singleton in Ht as ->.
    split; [done|]. intros v. cbn. rewrite !elem_of_cons. tauto.
Qed.

(** ** Groups: removal *)

(** C1: [Remove] does not test the member it is about to delete.  With a
    group that holds [y:2] and [x:1] and a walk that visits [y] first,
    [Remove(x:1)] deletes [y:2] as well: at that visit the group still
    contains [x:1].  With the walk that visits [x] first, [y:2] stays. *)
Theorem TagGroup_Remove_unmatched_member :
  NewGroup "g" [tag_y2; tag_x1] = Ok (group_of "g" [tag_y2; tag_x1])
  ∧ fair (order_by ["y"; "x"]%string)
  ∧ TagGroup_Tags (order_by ["y"; "x"]%string) (group_of "g" [tag_y2; tag_x1])
    = [tag_y2; tag_x1]
  ∧ TagGroup_Tags (order_by ["y"; "x"]%string)
      (TagGroup_Remove (order_by ["y"; "x"]%string)
         (group_of "g" [tag_y2; tag_x1]) [tag_x1])
    = []
  ∧ TagGroup_tags
      (TagGroup_Remove (order_by ["y"; "x"]%string)
         (group_of "g" [tag_y2; tag_x1]) [tag_x1]) !! "y"%string
    = None
  ∧ TagGroup_Tags (order_by ["x"; "y"]%string)
      (TagGroup_Remove (order_by ["x"; "y"]%string)
         (group_of "g" [tag_y2; tag_x1]) [tag_x1])
    = [tag_y2].
Proof.
  split; [vm_compute; reflexivity|].
  split; [apply fair_order_by; repeat constructor; set_solver|].
  repeat split; vm_compute; reflexivity.
Qed.

(** [RemoveNames] on the specification's example. *)
Example TagGroup_RemoveNames_example :
  TagGroup_Tags listing_order
    (TagGroup_RemoveNames listing_order (group_of "g" [tag_x1; tag_y2])
       ["x"]%string)
  = [tag_y2].
Proof. vm_compute. reflexivity. Qed.

(** ** Groups: sorting *)

Example SortStableFunc_example :
  slices.SortStableFunc [tag_b1; tag_a1; tag_c1]
    (λ tag1 tag2, String.ltb (Tag_Name tag1) (Tag_Name tag2))
  = [tag_a1; tag_b1; tag_c1].
Proof. vm_compute. reflexivity. Qed.

(** C6: [SortNames] leaves the group as it was, so [Tags] after it still
    follows the walk of the runtime.  For the group built from [b:1],
    [a:1], [c:1] and the walk [b], [a], [c], [Tags] after
    [SortNames(false)] is [b:1], [a:1], [c:1], which is not ascending. *)
Theorem TagGroup_SortNames_no_effect :
  (∀ rt g desc, TagGroup_SortNames rt g desc = g)
  ∧ NewGroup "g" [tag_b1; tag_a1; tag_c1]
    = Ok (group_of "g" [tag_b1; tag_a1; tag_c1])
  ∧ fair (order_by ["b"; "a"; "c"]%string)
  ∧ TagGroup_Tags (order_by ["b"; "a"; "c"]%string)
      (TagGroup_SortNames (order_by ["b"; "a"; "c"]%string)
         (group_of "g" [tag_b1; tag_a1; tag_c1]) false)
    = [tag_b1; tag_a1; tag_c1]
  ∧ ¬ sorted_by_name false [tag_b1; tag_a1; tag_c1].
Proof.
  split; [done|].
  split; [vm_compute; reflexivity|].
  split; [apply fair_order_by; repeat constructor; set_solver|].
  split; [vm_compute; reflexivity|].
  intros H. inversion H as [|? ? _ Hd]. inversion Hd as [|? ? Hba].
  vm_compute in Hba. discriminate Hba.
Qed.

(** * Further properties of the code *)

(** ** Constructors *)

Lemma Tag_eta t : {| Tag_name := Tag_name t; Tag_values := Tag_values t |} = t.
Proof. by destruct t. Qed.

(** X1: [NewLabel] refuses a name that is empty or white space only and
    otherwise returns the tag with that name and no values, whatever the
    runtime does. *)
Theorem NewLabel_spec (rt : Runtime) name :
  NewLabel rt name
  = if bool_decide (strings.TrimSpace name = EmptyString)
    then Err (Errorf "name required")
    else Ok {| Tag_name := name; Tag_values := [] |}.
Proof.
  case_bool_decide as Hn.
  - by apply New_Err.
  - unfold NewLabel. rewrite New_Ok by done. do 2 f_equal.
    apply maps_Values_empty. unfold maps_DeleteFunc. simpl.
    apply map_filter_empty.
Qed.

Section ConstructorsFair.

Variable rt : Runtime.
Hypothesis rt_fair : fair rt.

Lemma New_one_value name value :
  strings.TrimSpace name ≠ EmptyString →
  New rt name [value]
  = Ok {| Tag_name := name;
          Tag_values :=
            if bool_decide (strings.TrimSpace value = EmptyString)
            then [] else [value] |}.
Proof.
  intros Hn.
  destruct (New_spec rt rt_fair name [value] Hn) as (t & Ht & Hname & _ & _ & Hp).
  rewrite Ht. f_equal. rewrite <- (Tag_eta t). f_equal; [done|].
  rewrite Tag_Values_eq in Hp. rewrite filter_cons, filter_nil in Hp.
  case_bool_decide as Hv.
  - rewrite decide_False in Hp by tauto.
    by apply Permutation_nil_r in Hp.
  - rewrite decide_True in Hp by done.
    by apply Permutation_singleton_r in Hp.
Qed.

(** X2: [NewSingleValue] fails with "name required" on a blank name, with
    "value required" on a blank value, and otherwise returns the tag with
    exactly that one value. *)
Theorem NewSingleValue_spec name value :
  NewSingleValue rt name value
  = if bool_decide (strings.TrimSpace name = EmptyString)
    then Err (Errorf "name required")
    else if bool_decide (strings.TrimSpace value = EmptyString)
         then Err (Errorf "value required")
         else Ok {| Tag_name := name; Tag_values := [value] |}.
Proof.
  unfold NewSingleValue. case_bool_decide as Hn.
  - by rewrite New_Err.
  - rewrite New_one_value by done. by case_bool_decide.
Qed.

(** X3: [NewMultiValue] fails with "name required" on a blank name and
    with "at least two unique values required" when fewer than two
    distinct non-blank values are given.  Otherwise it returns a tag with
    the given name whose values are the distinct non-blank inputs in some
    order; that tag is multi-value and is not a label. *)
Theorem NewMultiValue_spec name values :
  (strings.TrimSpace name = EmptyString →
   NewMultiValue rt name values = Err (Errorf "name required"))
  ∧ (strings.TrimSpace name ≠ EmptyString →
     length (remove_dups
               (filter (λ v, strings.TrimSpace v ≠ EmptyString) values)) < 2 →
     NewMultiValue rt name values
     = Err (Errorf "at least two unique values required"))
  ∧ (strings.TrimSpace name ≠ EmptyString →
     2 ≤ length (remove_dups
                   (filter (λ v, strings.TrimSpace v ≠ EmptyString) values)) →
     ∃ t, NewMultiValue rt name values = Ok t
          ∧ Tag_Name t = name
          ∧ Tag_Values t
            ≡ₚ remove_dups
                 (filter (λ v, strings.TrimSpace v ≠ EmptyString) values)
          ∧ Tag_IsMultiValue t = true
          ∧ Tag_IsLabel t = false).
Proof.
  unfold NewMultiValue. split_and!.
  - intros Hn. by rewrite New_Err.
  - intros Hn Hlen.
    destruct (New_spec rt rt_fair name values Hn) as (t & -> & _ & _ & _ & Hp).
    rewrite <- Hp in Hlen. by apply Nat.ltb_lt in Hlen as ->.
  - intros Hn Hlen.
    destruct (New_spec rt rt_fair name values Hn) as (t & -> & Hname & _ & _ & Hp).
    rewrite <- Hp in Hlen.
    assert ((length (Tag_Values t) <? 2) = false) as -> by by apply Nat.ltb_ge.
    exists t. split_and!; try done.
    + unfold Tag_IsMultiValue. rewrite <- Tag_Values_eq. apply Nat.ltb_lt. lia.
    + unfold Tag_IsLabel. rewrite <- Tag_Values_eq. apply Nat.eqb_neq. lia.
Qed.

End ConstructorsFair.

Lemma NewSingleValue_spec_witness :
  fair listing_order
  ∧ NewSingleValue listing_order "env" "prod"
    = Ok {| Tag_name := "env"; Tag_values := ["prod"]%string |}
  ∧ NewSingleValue listing_order "env" "  " = Err (Errorf "value required")
  ∧ NewSingleValue listing_order "" "prod" = Err (Errorf "name required").
Proof.
  split; [exact fair_listing_order|].
  split_and!.
  - exact (NewSingleValue_spec listing_order fair_listing_order "env" "prod").
  - exact (NewSingleValue_spec listing_order fair_listing_order "env" "  ").
  - exact (NewSingleValue_spec listing_order fair_listing_order "" "prod").
Defined.

Lemma NewMultiValue_spec_witness :
  fair listing_order
  ∧ NewMultiValue listing_order "" ["a"; "b"]%string
    = Err (Errorf "name required")
  ∧ NewMultiValue listing_order "x" ["a"; "a"; ""]%string
    = Err (Errorf "at least two unique values required")
  ∧ ∃ t, NewMultiValue listing_order "x" ["a"; "a"; "b"]%string = Ok t
         ∧ Tag_Name t = "x"%string
         ∧ Tag_Values t
           ≡ₚ remove_dups
                (filter (λ v, strings.TrimSpace v ≠ EmptyString)
                   ["a"; "a"; "b"]%string)
         ∧ Tag_IsMultiValue t = true
         ∧ Tag_IsLabel t = false.
Proof.
  split; [exact fair_listing_order|].
  split_and!.
  - apply (proj1 (NewMultiValue_spec listing_order fair_listing_order
                    "" ["a"; "b"]%string)).
    reflexivity.
  - apply (proj1 (proj2 (NewMultiValue_spec listing_order fair_listing_order
                           "x" ["a"; "a"; ""]%string))).
    + vm_compute. discriminate.
    + vm_compute. lia.
  - apply (proj2 (proj2 (NewMultiValue_spec listing_order fair_listing_order
                           "x" ["a"; "a"; "b"]%string))).
    + vm_compute. discriminate.
    + vm_compute. lia.
Defined.

(** ** Accessors *)

(** X4: [HasValues] is an any-match: it holds exactly when the tag has a
    value that is among the queried ones.  So it is [false] for a label
    and [false] for an empty query. *)
Theorem Tag_HasValues_any t values :
  (Tag_HasValues t values = true ↔ ∃ v, v ∈ Tag_values t ∧ v ∈ values)
  ∧ (Tag_IsLabel t = true → Tag_HasValues t values = false)
  ∧ Tag_HasValues t [] = false.
Proof.
  assert (∀ vs, Tag_HasValues t vs = true ↔ ∃ v, v ∈ Tag_values t ∧ v ∈ vs)
    as H.
  { intros vs. unfold Tag_HasValues.
    rewrite slices_ContainsFunc_true, Tag_Values_eq.
    by setoid_rewrite slices_Contains_true. }
  split_and!.
  - apply H.
  - intros Hl. apply not_true_iff_false. rewrite H. intros (v & Hv & _).
    unfold Tag_IsLabel in Hl. apply Nat.eqb_eq in Hl.
    destruct (Tag_values t); [by apply elem_of_nil in Hv|done].
  - apply not_true_iff_false. rewrite H. intros (v & _ & Hv).
    by apply elem_of_nil in Hv.
Qed.

Lemma Tag_HasValues_any_witness :
  Tag_IsLabel {| Tag_name := "critical"; Tag_values := [] |} = true
  ∧ Tag_HasValues {| Tag_name := "critical"; Tag_values := [] |}
      ["a"]%string = false.
Proof.
  split; [reflexivity|].
  apply (proj1 (proj2 (Tag_HasValues_any
                         {| Tag_name := "critical"; Tag_values := [] |}
                         ["a"]%string))).
  reflexivity.
Defined.

(** ** [Parse] *)

Lemma HasPrefix_take s m : strings.HasPrefix s (strings.take m s) = true.
Proof.
  revert m. induction s as [|a s IH]; intros [|m]; simpl; try done.
  by rewrite Ascii.eqb_refl.
Qed.

Lemma HasPrefix_refl s : strings.HasPrefix s s = true.
Proof. induction s as [|a s IH]; simpl; [done|]. by rewrite Ascii.eqb_refl. Qed.

(** X5: the name of a tag that [Parse] returns holds no [':'] and is a
    prefix of the input. *)
Theorem Parse_name tag t :
  Parse tag = Ok t →
  colons (Tag_name t) = O ∧ strings.HasPrefix tag (Tag_name t) = true.
Proof.
  rewrite <- !CountString_colons, Parse_unfold.
  pose proof (Split_byte_length ":" tag) as Hlen.
  destruct (strings.CountString tag ":") as [|[|n]] eqn:Hn.
  - rewrite (Split_byte_absent ":" tag Hn). intros [= <-]. simpl.
    split; [done|apply HasPrefix_refl].
  - destruct (Split_byte_once ":" tag Hn) as (m & _ & -> & Hm & _).
    intros [= <-]. simpl. split; [done|apply HasPrefix_take].
  - destruct (strings.Split tag ":") as [|? [|? [|? ?]]]; done.
Qed.

Lemma Parse_name_witness :
  Parse "env:prod" = Ok {| Tag_name := "env"; Tag_values := [","]%string |}
  ∧ colons "env" = O ∧ strings.HasPrefix "env:prod" "env" = true.
Proof.
  split; [reflexivity|].
  apply (Parse_name "env:prod"
           {| Tag_name := "env"; Tag_values := [","]%string |}).
  reflexivity.
Defined.

(** ** Groups: [Add] and [NewGroup] *)

Lemma TagGroup_Add_name g tags :
  TagGroup_name (TagGroup_Add g tags) = TagGroup_name g.
Proof.
  revert g. induction tags as [|t tags IH]; intros g; [done|].
  by rewrite TagGroup_Add_cons, IH.
Qed.

Lemma TagGroup_Add_snoc g tags t :
  TagGroup_Add g (tags ++ [t])
  = set_tags (TagGroup_Add g tags)
      (<[Tag_name t := t]> (TagGroup_tags (TagGroup_Add g tags))).
Proof. by rewrite TagGroup_Add_app. Qed.

Lemma TagGroup_Add_lookup_aux g tags n :
  TagGroup_tags (TagGroup_Add g tags) !! n
  = match last (filter (λ t, Tag_name t = n) tags) with
    | Some t => Some t
    | None => TagGroup_tags g !! n
    end.
Proof.
  induction tags as [|t tags IH] using rev_ind; [done|].
  rewrite TagGroup_Add_snoc, filter_app. cbn [set_tags TagGroup_tags].
  rewrite filter_cons, filter_nil.
  destruct (decide (Tag_name t = n)) as [<-|Hne].
  - by rewrite last_snoc, lookup_insert_eq.
  - by rewrite app_nil_r, lookup_insert_ne.
Qed.

Lemma TagGroup_eq g1 g2 :
  TagGroup_name g1 = TagGroup_name g2 →
  (∀ n, TagGroup_tags g1 !! n = TagGroup_tags g2 !! n) →
  g1 = g2.
Proof.
  destruct g1 as [n1 m1], g2 as [n2 m2]. simpl. intros -> H.
  f_equal. by apply map_eq.
Qed.

(** X6: after [Add(tags...)] the entry of a name is the last of the added
    tags that has this name, and the entry the group had before when no
    added tag has it. *)
Theorem TagGroup_Add_lookup g tags n :
  TagGroup_tags (TagGroup_Add g tags) !! n
  = match last (filter (λ t, Tag_name t = n) tags) with
    | Some t => Some t
    | None => TagGroup_tags g !! n
    end.
Proof. apply TagGroup_Add_lookup_aux. Qed.

(** X7: [Add] keeps the group's name, and the names in the group after
    [Add(tags...)] are those it had together with the names of [tags]. *)
Theorem TagGroup_Add_dom g tags :
  TagGroup_Name (TagGroup_Add g tags) = TagGroup_Name g
  ∧ dom (TagGroup_tags (TagGroup_Add g tags))
    = dom (TagGroup_tags g) ∪ list_to_set (Tag_name <$> tags).
Proof.
  split; [apply TagGroup_Add_name|].
  revert g. induction tags as [|t tags IH]; intros g.
  - simpl. set_solver.
  - rewrite TagGroup_Add_cons, IH. cbn [set_tags TagGroup_tags].
    rewrite dom_insert_L, fmap_cons, list_to_set_cons. set_solver.
Qed.

(** X8: adding in two calls is adding the concatenation in one call, and
    adding the same tags a second time changes nothing. *)
Theorem TagGroup_Add_compose g tags1 tags2 :
  TagGroup_Add (TagGroup_Add g tags1) tags2 = TagGroup_Add g (tags1 ++ tags2)
  ∧ TagGroup_Add (TagGroup_Add g tags1) tags1 = TagGroup_Add g tags1.
Proof.
  split; [by rewrite TagGroup_Add_app|].
  apply TagGroup_eq; [by rewrite !TagGroup_Add_name|].
  intros n. rewrite (TagGroup_Add_lookup_aux (TagGroup_Add g tags1)).
  rewrite TagGroup_Add_lookup_aux.
  by destruct (last (filter (λ t, Tag_name t = n) tags1)).
Qed.

Lemma NoDup_names_filter_last (tags : list Tag) t :
  NoDup (Tag_name <$> tags) → t ∈ tags →
  last (filter (λ t', Tag_name t' = Tag_name t) tags) = Some t.
Proof.
  intros Hnd Ht.
  pose proof (filter_eq_length_le_1 Tag_name tags (Tag_name t) Hnd) as Hlen.
  assert (t ∈ filter (λ t', Tag_name t' = Tag_name t) tags) as Hin
    by by apply list_elem_of_filter.
  destruct (filter (λ t', Tag_name t' = Tag_name t) tags) as [|a [|b l]].
  - by apply elem_of_nil in Hin.
  - by apply list_elem_of_singleton in Hin as ->.
  - simpl in Hlen. lia.
Qed.

(** X9: [NewGroup] fails with "name required" exactly on a blank name.
    The group it returns has the given name, holds for each name the last
    of the given tags with that name, and, when the given tags have
    distinct names, [Tags] lists exactly the given tags in some order. *)
Theorem NewGroup_spec name tags :
  (strings.TrimSpace name = EmptyString →
   NewGroup name tags = Err (Errorf "name required"))
  ∧ (strings.TrimSpace name ≠ EmptyString →
     ∃ g, NewGroup name tags = Ok g
          ∧ TagGroup_Name g = name
          ∧ (∀ n, TagGroup_tags g !! n
                  = last (filter (λ t, Tag_name t = n) tags))
          ∧ (NoDup (Tag_name <$> tags) →
             ∀ rt, fair rt → TagGroup_Tags rt g ≡ₚ tags)).
Proof.
  split.
  - intros H. unfold NewGroup, TagGroup_Rename.
    by rewrite bool_decide_eq_true_2.
  - intros H. eexists. split; [by apply NewGroup_Ok|].
    assert (∀ n, TagGroup_tags
                   (TagGroup_Add
                      {| TagGroup_name := name; TagGroup_tags := ∅ |} tags)
                 !! n
                 = last (filter (λ t, Tag_name t = n) tags)) as Hl.
    { intros n. rewrite TagGroup_Add_lookup_aux. cbn [TagGroup_tags].
      rewrite lookup_empty. by destruct (last _). }
    split_and!.
    + apply TagGroup_Add_name.
    + done.
    + intros Hnd rt Hrt. rewrite (TagGroup_Tags_perm rt Hrt).
      pose proof (TagGroup_Add_inv
                    {| TagGroup_name := name; TagGroup_tags := ∅ |} tags
                    (map_Forall_empty _)) as Hinv.
      apply NoDup_Permutation.
      * eapply NoDup_fmap_1. by apply members_names_NoDup.
      * by eapply NoDup_fmap_1.
      * intros t. rewrite elem_of_members_inv, Hl by done. split.
        -- intros Ht. apply last_Some_elem_of, list_elem_of_filter in Ht.
           tauto.
        -- intros Ht. by apply NoDup_names_filter_last.
Qed.

Lemma NewGroup_spec_witness :
  NewGroup "  " [tag_x1] = Err (Errorf "name required")
  ∧ ∃ g, NewGroup "service-x" [tag_x1; tag_y2; tag_x2] = Ok g
         ∧ TagGroup_Name g = "service-x"%string
         ∧ (∀ n, TagGroup_tags g !! n
                 = last (filter (λ t, Tag_name t = n)
                           [tag_x1; tag_y2; tag_x2]))
         ∧ (NoDup (Tag_name <$> [tag_x1; tag_y2; tag_x2]) →
            ∀ rt, fair rt → TagGroup_Tags rt g ≡ₚ [tag_x1; tag_y2; tag_x2]).
Proof.
  split.
  - apply (proj1 (NewGroup_spec "  " [tag_x1])). reflexivity.
  - apply (proj2 (NewGroup_spec "service-x" [tag_x1; tag_y2; tag_x2])).
    vm_compute. discriminate.
Defined.

(** ** Groups: [Tags] and the finders *)

Section Finders.

Variable rt : Runtime.
Hypothesis rt_fair : fair rt.

Lemma elem_of_TagGroup_Tags g t :
  TagGroup_inv g →
  t ∈ TagGroup_Tags rt g ↔ TagGroup_tags g !! Tag_name t = Some t.
Proof.
  intros Hg. rewrite (TagGroup_Tags_perm rt rt_fair).
  by apply elem_of_members_inv.
Qed.

Lemma elem_of_TagGroup_FindFunc g fn t :
  TagGroup_inv g →
  t ∈ TagGroup_FindFunc rt g fn
  ↔ TagGroup_tags g !! Tag_name t = Some t ∧ fn t = true.
Proof.
  intros Hg. unfold TagGroup_FindFunc.
  rewrite list_elem_of_In, List.filter_In, <- list_elem_of_In.
  by rewrite elem_of_TagGroup_Tags.
Qed.

(** X10: [Tags] returns every member once: as many tags as the map has
    entries, no name twice, and a tag is listed exactly when it is the
    entry stored under its name. *)
Theorem TagGroup_Tags_spec g :
  TagGroup_inv g →
  length (TagGroup_Tags rt g) = size (TagGroup_tags g)
  ∧ NoDup (TagGroup_Tags rt g)
  ∧ ∀ t, t ∈ TagGroup_Tags rt g ↔ TagGroup_tags g !! Tag_name t = Some t.
Proof.
  intros Hg. split_and!.
  - rewrite (TagGroup_Tags_perm rt rt_fair). unfold members.
    by rewrite length_fmap, length_map_to_list.
  - eapply NoDup_fmap_1. by apply TagGroup_Tags_names_NoDup.
  - intros t. by apply elem_of_TagGroup_Tags.
Qed.

(** X11: [FindFunc] returns exactly the members that satisfy [fn], each
    once and in the order in which [Tags] lists them; [ContainsFunc] tells
    whether there is such a member. *)
Theorem TagGroup_FindFunc_spec g fn :
  TagGroup_inv g →
  (∀ t, t ∈ TagGroup_FindFunc rt g fn
        ↔ TagGroup_tags g !! Tag_name t = Some t ∧ fn t = true)
  ∧ NoDup (TagGroup_FindFunc rt g fn)
  ∧ TagGroup_FindFunc rt g fn `sublist_of` TagGroup_Tags rt g
  ∧ (TagGroup_ContainsFunc rt g fn = true
     ↔ ∃ t, TagGroup_tags g !! Tag_name t = Some t ∧ fn t = true).
Proof.
  intros Hg.
  assert (TagGroup_FindFunc rt g fn `sublist_of` TagGroup_Tags rt g) as Hsub.
  { unfold TagGroup_FindFunc.
    rewrite (List_filter_stdpp _ (λ t, fn t = true)) by done.
    apply sublist_filter. }
  split_and!.
  - intros t. by apply elem_of_TagGroup_FindFunc.
  - apply (sublist_NoDup _ (TagGroup_Tags rt g)); [|done].
    eapply NoDup_fmap_1. by apply TagGroup_Tags_names_NoDup.
  - done.
  - unfold TagGroup_ContainsFunc.
    rewrite negb_true_iff, Nat.eqb_neq.
    setoid_rewrite <- elem_of_TagGroup_FindFunc; [|done].
    destruct (TagGroup_FindFunc rt g fn) as [|t l]; simpl.
    + split; [done|]. intros [t Ht]. by apply elem_of_nil in Ht.
    + split; [|done]. intros _. exists t. left.
Qed.

(** X12: [FindValues] returns the members that share at least one value
    with the query and [ContainsValues] tells whether there is one; a
    member need not have all the queried values. *)
Theorem TagGroup_FindValues_any g values :
  TagGroup_inv g →
  (∀ t, t ∈ TagGroup_FindValues rt g values
        ↔ TagGroup_tags g !! Tag_name t = Some t
          ∧ ∃ v, v ∈ Tag_values t ∧ v ∈ values)
  ∧ (TagGroup_ContainsValues rt g values = true
     ↔ ∃ t v, TagGroup_tags g !! Tag_name t = Some t
              ∧ v ∈ Tag_values t ∧ v ∈ values).
Proof.
  intros Hg.
  assert (∀ t, Tag_HasValues t values = true
               ↔ ∃ v, v ∈ Tag_values t ∧ v ∈ values) as Hhas.
  { intros t. unfold Tag_HasValues.
    rewrite slices_ContainsFunc_true, Tag_Values_eq.
    by setoid_rewrite slices_Contains_true. }
  split.
  - intros t. unfold TagGroup_FindValues.
    by rewrite elem_of_TagGroup_FindFunc, Hhas.
  - unfold TagGroup_ContainsValues, TagGroup_ContainsFunc.
    rewrite negb_true_iff, Nat.eqb_neq. split.
    + intros Hne.
      destruct (TagGroup_FindFunc rt g (λ tag, Tag_HasValues tag values))
        as [|t l] eqn:Hf; [done|].
      assert (t ∈ TagGroup_FindFunc rt g (λ tag, Tag_HasValues tag values))
        as Ht by (rewrite Hf; left).
      apply elem_of_TagGroup_FindFunc in Ht as [Ht Hv]; [|done].
      apply Hhas in Hv as (v & ? & ?). eauto.
    + intros (t & v & Ht & Hv1 & Hv2).
      assert (t ∈ TagGroup_FindFunc rt g (λ tag, Tag_HasValues tag values))
        as Hin.
      { apply elem_of_TagGroup_FindFunc; [done|]. split; [done|].
        apply Hhas. eauto. }
      intros Hlen.
      destruct (TagGroup_FindFunc rt g (λ tag, Tag_HasValues tag values));
        [by apply elem_of_nil in Hin|done].
Qed.

Lemma TagGroup_ContainsNames_NoDup g names :
  TagGroup_inv g →
  NoDup names →
  TagGroup_ContainsNames rt g names = true
  ↔ ∀ n, n ∈ names → is_Some (TagGroup_tags g !! n).
Proof.
  intros Hg Hnd. rewrite (TagGroup_ContainsNames_true rt rt_fair).
  set (F := filter (λ t, Tag_Name t ∈ names) (members g)).
  assert (NoDup (Tag_name <$> F)) as HFnd.
  { apply (sublist_NoDup _ (Tag_name <$> members g)).
    - by apply members_names_NoDup.
    - apply fmap_sublist, sublist_filter. }
  assert (∀ n, n ∈ Tag_name <$> F
               ↔ n ∈ names ∧ is_Some (TagGroup_tags g !! n)) as HF.
  { intros n. unfold F. rewrite list_elem_of_fmap. split.
    - intros (t & -> & Ht). apply list_elem_of_filter in Ht as [Hn Ht].
      split; [done|]. apply elem_of_members_inv in Ht; [|done]. eauto.
    - intros [Hn [t Ht]]. exists t.
      pose proof (Hg _ _ Ht) as Hname. split; [done|].
      apply list_elem_of_filter. unfold Tag_Name. rewrite Hname.
      split; [done|]. apply elem_of_members. eauto. }
  rewrite <- (length_fmap Tag_name F). split.
  - intros Hlen n Hn.
    assert (Tag_name <$> F ≡ₚ names) as Hperm.
    { apply submseteq_length_Permutation; [|lia].
      apply NoDup_submseteq; [done|]. intros x Hx. by apply HF in Hx as [? _]. }
    rewrite <- Hperm in Hn. by apply HF in Hn as [_ ?].
  - intros Hall. apply Permutation_length, NoDup_Permutation; [done|done|].
    intros n. rewrite HF. naive_solver.
Qed.

(** X13: when the supplied names are pairwise distinct, [ContainsNames]
    returns [true] exactly when every one of them is the name of a
    member. *)
Theorem TagGroup_ContainsNames_distinct g names :
  TagGroup_inv g →
  NoDup names →
  TagGroup_ContainsNames rt g names = true
  ↔ ∀ n, n ∈ names → is_Some (TagGroup_tags g !! n).
Proof. apply TagGroup_ContainsNames_NoDup. Qed.

Lemma TagGroup_Contains_single g t :
  TagGroup_inv g →
  TagGroup_Contains rt g [t] = true
  ↔ ∃ m, TagGroup_tags g !! Tag_name t = Some m
         ∧ Tag_Values m = Tag_Values t.
Proof.
  intros Hg. rewrite (TagGroup_Contains_true rt rt_fair) by done. split.
  - intros [_ H]. destruct (H t) as (m & Hm & Hn & Hv); [left|].
    exists m. split; [|done]. rewrite <- Hn. by apply elem_of_members_inv.
  - intros (m & Hm & Hv). split; [apply NoDup_singleton|].
    intros t' ->%list_elem_of_singleton. exists m.
    pose proof (Hg _ _ Hm) as Hn.
    split; [apply elem_of_members; eauto|]. by split.
Qed.

(** X14: a tag that has just been added is found: [Contains] and
    [ContainsNames] hold for it and [Tags] lists it. *)
Theorem TagGroup_Add_then_Contains g t :
  TagGroup_inv g →
  TagGroup_Contains rt (TagGroup_Add g [t]) [t] = true
  ∧ TagGroup_ContainsNames rt (TagGroup_Add g [t]) [Tag_Name t] = true
  ∧ t ∈ TagGroup_Tags rt (TagGroup_Add g [t]).
Proof.
  intros Hg.
  pose proof (TagGroup_Add_inv g [t] Hg) as Hg'.
  assert (TagGroup_tags (TagGroup_Add g [t]) !! Tag_name t = Some t) as Hl
    by apply lookup_insert_eq.
  split_and!.
  - apply TagGroup_Contains_single; eauto.
  - apply TagGroup_ContainsNames_NoDup; [done|apply NoDup_singleton|].
    intros n ->%list_elem_of_singleton. eauto.
  - by apply elem_of_TagGroup_Tags.
Qed.

End Finders.

Lemma TagGroup_Tags_spec_witness :
  fair listing_order
  ∧ TagGroup_inv (group_of "g" [tag_x1; tag_y2; tag_x2])
  ∧ length (TagGroup_Tags listing_order (group_of "g" [tag_x1; tag_y2; tag_x2]))
    = size (TagGroup_tags (group_of "g" [tag_x1; tag_y2; tag_x2]))
  ∧ NoDup (TagGroup_Tags listing_order
             (group_of "g" [tag_x1; tag_y2; tag_x2]))
  ∧ ∀ t, t ∈ TagGroup_Tags listing_order
               (group_of "g" [tag_x1; tag_y2; tag_x2])
         ↔ TagGroup_tags (group_of "g" [tag_x1; tag_y2; tag_x2])
           !! Tag_name t = Some t.
Proof.
  split; [exact fair_listing_order|].
  split; [apply group_of_inv|].
  apply (TagGroup_Tags_spec listing_order fair_listing_order).
  apply group_of_inv.
Defined.

Lemma TagGroup_FindFunc_spec_witness :
  fair listing_order
  ∧ TagGroup_inv (group_of "g" [tag_x1; tag_y2])
  ∧ (∀ t, t ∈ TagGroup_FindFunc listing_order (group_of "g" [tag_x1; tag_y2])
                (λ t, Tag_HasName t "y")
          ↔ TagGroup_tags (group_of "g" [tag_x1; tag_y2]) !! Tag_name t
            = Some t
            ∧ Tag_HasName t "y" = true)
  ∧ NoDup (TagGroup_FindFunc listing_order (group_of "g" [tag_x1; tag_y2])
             (λ t, Tag_HasName t "y"))
  ∧ TagGroup_FindFunc listing_order (group_of "g" [tag_x1; tag_y2])
      (λ t, Tag_HasName t "y")
    `sublist_of` TagGroup_Tags listing_order (group_of "g" [tag_x1; tag_y2])
  ∧ (TagGroup_ContainsFunc listing_order (group_of "g" [tag_x1; tag_y2])
       (λ t, Tag_HasName t "y") = true
     ↔ ∃ t, TagGroup_tags (group_of "g" [tag_x1; tag_y2]) !! Tag_name t
            = Some t
            ∧ Tag_HasName t "y" = true).
Proof.
  split; [exact fair_listing_order|].
  split; [apply group_of_inv|].
  apply (TagGroup_FindFunc_spec listing_order fair_listing_order).
  apply group_of_inv.
Defined.

Lemma TagGroup_FindValues_any_witness :
  fair listing_order
  ∧ TagGroup_inv (group_of "g" [tag_x12])
  ∧ (∀ t, t ∈ TagGroup_FindValues listing_order (group_of "g" [tag_x12])
                ["2"; "9"]%string
          ↔ TagGroup_tags (group_of "g" [tag_x12]) !! Tag_name t = Some t
            ∧ ∃ v, v ∈ Tag_values t ∧ v ∈ ["2"; "9"]%string)
  ∧ (TagGroup_ContainsValues listing_order (group_of "g" [tag_x12])
       ["2"; "9"]%string = true
     ↔ ∃ t v, TagGroup_tags (group_of "g" [tag_x12]) !! Tag_name t = Some t
              ∧ v ∈ Tag_values t ∧ v ∈ ["2"; "9"]%string).
Proof.
  split; [exact fair_listing_order|].
  split; [apply group_of_inv|].
  apply (TagGroup_FindValues_any listing_order fair_listing_order).
  apply group_of_inv.
Defined.

Lemma TagGroup_ContainsNames_distinct_witness :
  fair listing_order
  ∧ TagGroup_inv (group_of "g" [tag_x1; tag_y2])
  ∧ NoDup ["x"; "y"]%string
  ∧ (TagGroup_ContainsNames listing_order (group_of "g" [tag_x1; tag_y2])
       ["x"; "y"]%string = true
     ↔ ∀ n, n ∈ ["x"; "y"]%string →
            is_Some (TagGroup_tags (group_of "g" [tag_x1; tag_y2]) !! n)).
Proof.
  assert (NoDup ["x"; "y"]%string) as Hnd.
  { apply NoDup_cons. split; [|apply NoDup_singleton].
    intros H%list_elem_of_singleton. discriminate H. }
  split; [exact fair_listing_order|].
  split; [apply group_of_inv|].
  split; [exact Hnd|].
  apply (TagGroup_ContainsNames_distinct listing_order fair_listing_order);
    [apply group_of_inv|exact Hnd].
Defined.

Lemma TagGroup_Add_then_Contains_witness :
  fair listing_order
  ∧ TagGroup_inv (group_of "g" [tag_x1])
  ∧ TagGroup_Contains listing_order (TagGroup_Add (group_of "g" [tag_x1]) [tag_x2])
      [tag_x2] = true
  ∧ TagGroup_ContainsNames listing_order
      (TagGroup_Add (group_of "g" [tag_x1]) [tag_x2]) [Tag_Name tag_x2] = true
  ∧ tag_x2 ∈ TagGroup_Tags listing_order
               (TagGroup_Add (group_of "g" [tag_x1]) [tag_x2]).
Proof.
  split; [exact fair_listing_order|].
  split; [apply group_of_inv|].
  apply (TagGroup_Add_then_Contains listing_order fair_listing_order).
  apply group_of_inv.
Defined.

(** ** Groups: removal with a predicate on the tag alone *)

Lemma RemoveFunc_loop_name (fn : TagGroup → MatchFunc) l g :
  TagGroup_name
    (foldl (λ g t,
              if fn g t then set_tags g (delete (Tag_name t) (TagGroup_tags g))
              else g) g l)
  = TagGroup_name g.
Proof.
  revert g. induction l as [|t l IH]; intros g; [done|].
  cbn [foldl]. rewrite IH. by destruct (fn g t).
Qed.

Lemma RemoveFunc_loop_subseteq (fn : TagGroup → MatchFunc) l g :
  TagGroup_tags
    (foldl (λ g t,
              if fn g t then set_tags g (delete (Tag_name t) (TagGroup_tags g))
              else g) g l)
  ⊆ TagGroup_tags g.
Proof.
  revert g. induction l as [|t l IH]; intros g; [done|].
  cbn [foldl]. etrans; [apply IH|]. destruct (fn g t); [|done].
  cbn [set_tags TagGroup_tags]. apply delete_subseteq.
Qed.

Lemma RemoveFunc_loop_lookup (fn : MatchFunc) l g k :
  TagGroup_tags
    (foldl (λ g t,
              if fn t then set_tags g (delete (Tag_name t) (TagGroup_tags g))
              else g) g l) !! k
  = if existsb (λ t, bool_decide (Tag_name t = k) && fn t) l then None
    else TagGroup_tags g !! k.
Proof.
  revert g. induction l as [|t l IH]; intros g; [done|].
  cbn [foldl existsb]. rewrite IH.
  destruct (existsb _ l); [by rewrite orb_true_r|]. rewrite orb_false_r.
  destruct (fn t); [|by rewrite andb_false_r].
  rewrite andb_true_r. cbn [set_tags TagGroup_tags].
  case_bool_decide as Hk.
  - subst k. apply lookup_delete_eq.
  - by apply lookup_delete_ne.
Qed.

Section Removal.

Variable rt : Runtime.
Hypothesis rt_fair : fair rt.

Lemma RemoveFunc_pure_lookup_Some g (fn : MatchFunc) k t :
  TagGroup_inv g →
  TagGroup_tags (TagGroup_RemoveFunc rt g (λ _, fn)) !! k = Some t
  ↔ TagGroup_tags g !! k = Some t ∧ fn t = false.
Proof.
  intros Hg. unfold TagGroup_RemoveFunc. rewrite RemoveFunc_loop_lookup.
  destruct (existsb _ _) eqn:Hex.
  - split; [done|]. intros [Hk Hfn].
    apply existsb_exists in Hex as (t' & Ht' & Hc).
    apply andb_true_iff in Hc as [Hn Hfn'].
    apply bool_decide_eq_true in Hn.
    apply list_elem_of_In, (elem_of_TagGroup_Tags rt rt_fair) in Ht'; [|done].
    rewrite Hn, Hk in Ht'. congruence.
  - split; [|tauto]. intros Hk. split; [done|].
    apply not_true_iff_false. intros Hfn.
    apply not_true_iff_false in Hex. apply Hex.
    apply existsb_exists. exists t. split.
    + apply list_elem_of_In, (elem_of_TagGroup_Tags rt rt_fair); [done|].
      by rewrite (Hg _ _ Hk).
    + rewrite (Hg _ _ Hk), Hfn. by rewrite bool_decide_eq_true_2.
Qed.

(** X15: [RemoveFunc] with a predicate that looks at the tag only deletes
    exactly the members that satisfy it: what is left is the map filtered
    by the negated predicate, under the same group name. *)
Theorem TagGroup_RemoveFunc_filter g (fn : MatchFunc) :
  TagGroup_inv g →
  TagGroup_tags (TagGroup_RemoveFunc rt g (λ _, fn))
  = filter (λ kt, fn kt.2 = false) (TagGroup_tags g)
  ∧ TagGroup_Name (TagGroup_RemoveFunc rt g (λ _, fn)) = TagGroup_Name g.
Proof.
  intros Hg. split; [|apply RemoveFunc_loop_name].
  apply map_eq. intros k. apply option_eq. intros t.
  by rewrite RemoveFunc_pure_lookup_Some, map_lookup_filter_Some.
Qed.

(** X16: after [RemoveNames(names...)] a name among [names] has no entry
    and every other name has the entry it had; [ContainsNames] is then
    [false] for each removed name. *)
Theorem TagGroup_RemoveNames_spec g names :
  TagGroup_inv g →
  (∀ n, TagGroup_tags (TagGroup_RemoveNames rt g names) !! n
        = if decide (n ∈ names) then None else TagGroup_tags g !! n)
  ∧ (∀ n, n ∈ names →
          TagGroup_ContainsNames rt (TagGroup_RemoveNames rt g names) [n]
          = false).
Proof.
  intros Hg.
  assert (∀ n, TagGroup_tags (TagGroup_RemoveNames rt g names) !! n
               = if decide (n ∈ names) then None else TagGroup_tags g !! n)
    as Hl.
  { intros n. apply option_eq. intros t. unfold TagGroup_RemoveNames.
    rewrite RemoveFunc_pure_lookup_Some by done.
    rewrite <- not_true_iff_false, slices_Contains_true. unfold Tag_Name.
    case_decide as Hn.
    - split; [|done]. intros [Hk Hnot]. by rewrite (Hg _ _ Hk) in Hnot.
    - split; [tauto|]. intros Hk. split; [done|]. by rewrite (Hg _ _ Hk). }
  split; [done|]. intros n Hn. apply not_true_iff_false.
  rewrite (TagGroup_ContainsNames_NoDup rt rt_fair);
    [|by apply TagGroup_RemoveFunc_inv|apply NoDup_singleton].
  intros H. destruct (H n) as [t Ht]; [left|].
  rewrite Hl, decide_True in Ht by done. done.
Qed.

(** X17: [RemoveValues(values...)] deletes exactly the members that share
    at least one value with [values]; labels are never deleted by it. *)
Theorem TagGroup_RemoveValues_spec g values n t :
  TagGroup_inv g →
  TagGroup_tags (TagGroup_RemoveValues rt g values) !! n = Some t
  ↔ TagGroup_tags g !! n = Some t
    ∧ ¬ ∃ v, v ∈ Tag_values t ∧ v ∈ values.
Proof.
  intros Hg. unfold TagGroup_RemoveValues.
  rewrite RemoveFunc_pure_lookup_Some by done.
  rewrite <- not_true_iff_false. unfold Tag_HasValues.
  rewrite slices_ContainsFunc_true, Tag_Values_eq.
  by setoid_rewrite slices_Contains_true.
Qed.

(** ** Groups: [Remove] *)

Lemma Remove_pred_false g tags :
  slices.ContainsFunc tags (λ tag, TagGroup_Contains rt g [tag]) = false
  ↔ ∀ t, t ∈ tags → TagGroup_Contains rt g [t] = false.
Proof.
  rewrite <- not_true_iff_false, slices_ContainsFunc_true. split.
  - intros H t Ht. apply not_true_iff_false. intros Hc. apply H. eauto.
  - intros H (t & Ht & Hc). rewrite (H t Ht) in Hc. done.
Qed.

Lemma Remove_loop_gone tags l g t m :
  TagGroup_inv g →
  t ∈ tags →
  TagGroup_tags
    (foldl (λ g _tag,
              if slices.ContainsFunc tags (λ tag, TagGroup_Contains rt g [tag])
              then set_tags g (delete (Tag_name _tag) (TagGroup_tags g))
              else g) g l) !! Tag_name m = Some m →
  Tag_Values m = Tag_Values t →
  Tag_name m = Tag_name t →
  m ∉ l.
Proof.
  revert g. induction l as [|x l IH]; intros g Hg Ht Hm Hv Hn.
  - apply not_elem_of_nil.
  - cbn [foldl] in Hm. apply not_elem_of_cons.
    pose proof (RemoveFunc_loop_subseteq
                  (λ g _, slices.ContainsFunc tags
                            (λ tag, TagGroup_Contains rt g [tag]))) as Hsub.
    cbv beta in Hsub.
    destruct (slices.ContainsFunc tags
                (λ tag, TagGroup_Contains rt g [tag])) eqn:Hp.
    + assert (TagGroup_inv
                (set_tags g (delete (Tag_name x) (TagGroup_tags g)))) as Hg'.
      { unfold TagGroup_inv. cbn [set_tags TagGroup_tags].
        by apply map_Forall_delete. }
      split; [|by apply (IH _ Hg')].
      intros ->.
      pose proof (lookup_weaken _ _ _ _ Hm (Hsub l _)) as Hx.
      cbn [set_tags TagGroup_tags] in Hx. by rewrite lookup_delete_eq in Hx.
    + split; [|by apply (IH _ Hg)].
      intros ->.
      pose proof (lookup_weaken _ _ _ _ Hm (Hsub l _)) as Hx.
      pose proof (proj1 (Remove_pred_false g tags) Hp t Ht) as Hc.
      apply not_true_iff_false in Hc. apply Hc.
      apply (TagGroup_Contains_single rt rt_fair); [done|].
      exists x. by rewrite <- Hn.
Qed.

(** X18: [Remove] only deletes members; it leaves the group as it is when
    the group contains none of the supplied tags; and after it the group
    contains none of the supplied tags. *)
Theorem TagGroup_Remove_spec g tags :
  TagGroup_tags (TagGroup_Remove rt g tags) ⊆ TagGroup_tags g
  ∧ ((∀ t, t ∈ tags → TagGroup_Contains rt g [t] = false) →
     TagGroup_Remove rt g tags = g)
  ∧ (TagGroup_inv g →
     ∀ t, t ∈ tags →
          TagGroup_Contains rt (TagGroup_Remove rt g tags) [t] = false).
Proof.
  split_and!.
  - apply RemoveFunc_loop_subseteq.
  - intros Hnone. apply Remove_pred_false in Hnone.
    unfold TagGroup_Remove, TagGroup_RemoveFunc.
    induction (TagGroup_Tags rt g) as [|x l IH]; [done|].
    cbn [foldl]. by rewrite Hnone.
  - intros Hg t Ht. apply not_true_iff_false. intros Hc.
    pose proof (TagGroup_RemoveFunc_inv rt g
                  (λ g _, slices.ContainsFunc tags
                            (λ tag, TagGroup_Contains rt g [tag])) Hg) as Hg'.
    apply (TagGroup_Contains_single rt rt_fair) in Hc as (m & Hm & Hv);
      [|done].
    pose proof (Hg' _ _ Hm) as Hn. rewrite <- Hn in Hm.
    eapply (Remove_loop_gone tags (TagGroup_Tags rt g) g t m);
      [done|done|exact Hm|done|done|].
    apply (elem_of_TagGroup_Tags rt rt_fair); [done|].
    eapply lookup_weaken; [exact Hm|]. apply RemoveFunc_loop_subseteq.
Qed.

End Removal.

Lemma TagGroup_RemoveFunc_filter_witness :
  fair listing_order
  ∧ TagGroup_inv (group_of "g" [tag_x1; tag_y2])
  ∧ TagGroup_tags
      (TagGroup_RemoveFunc listing_order (group_of "g" [tag_x1; tag_y2])
         (λ _ t, Tag_HasName t "x"))
    = filter (λ kt, Tag_HasName kt.2 "x" = false)
        (TagGroup_tags (group_of "g" [tag_x1; tag_y2]))
  ∧ TagGroup_Name
      (TagGroup_RemoveFunc listing_order (group_of "g" [tag_x1; tag_y2])
         (λ _ t, Tag_HasName t "x"))
    = TagGroup_Name (group_of "g" [tag_x1; tag_y2]).
Proof.
  split; [exact fair_listing_order|].
  split; [apply group_of_inv|].
  apply (TagGroup_RemoveFunc_filter listing_order fair_listing_order
           (group_of "g" [tag_x1; tag_y2]) (λ t, Tag_HasName t "x")).
  apply group_of_inv.
Defined.

Lemma TagGroup_RemoveNames_spec_witness :
  fair listing_order
  ∧ TagGroup_inv (group_of "g" [tag_x1; tag_y2])
  ∧ (∀ n, TagGroup_tags
            (TagGroup_RemoveNames listing_order (group_of "g" [tag_x1; tag_y2])
               ["x"]%string) !! n
          = if decide (n ∈ ["x"]%string) then None
            else TagGroup_tags (group_of "g" [tag_x1; tag_y2]) !! n)
  ∧ (∀ n, n ∈ ["x"]%string →
          TagGroup_ContainsNames listing_order
            (TagGroup_RemoveNames listing_order (group_of "g" [tag_x1; tag_y2])
               ["x"]%string) [n]
          = false).
Proof.
  split; [exact fair_listing_order|].
  split; [apply group_of_inv|].
  apply (TagGroup_RemoveNames_spec listing_order fair_listing_order).
  apply group_of_inv.
Defined.

Lemma TagGroup_RemoveValues_spec_witness :
  fair listing_order
  ∧ TagGroup_inv (group_of "g" [tag_x12; tag_y2])
  ∧ (TagGroup_tags
       (TagGroup_RemoveValues listing_order (group_of "g" [tag_x12; tag_y2])
          ["1"; "9"]%string) !! "y"%string = Some tag_y2
     ↔ TagGroup_tags (group_of "g" [tag_x12; tag_y2]) !! "y"%string
       = Some tag_y2
       ∧ ¬ ∃ v, v ∈ Tag_values tag_y2 ∧ v ∈ ["1"; "9"]%string).
Proof.
  split; [exact fair_listing_order|].
  split; [apply group_of_inv|].
  apply (TagGroup_RemoveValues_spec listing_order fair_listing_order).
  apply group_of_inv.
Defined.

Lemma TagGroup_Remove_spec_witness :
  fair listing_order
  ∧ TagGroup_inv (group_of "g" [tag_x1; tag_y2])
  ∧ (∀ t, t ∈ [tag_x2] →
          TagGroup_Contains listing_order (group_of "g" [tag_x1; tag_y2]) [t]
          = false)
  ∧ TagGroup_Remove listing_order (group_of "g" [tag_x1; tag_y2]) [tag_x2]
    = group_of "g" [tag_x1; tag_y2]
  ∧ (∀ t, t ∈ [tag_x1] →
          TagGroup_Contains listing_order
            (TagGroup_Remove listing_order (group_of "g" [tag_x1; tag_y2])
               [tag_x1]) [t]
          = false).
Proof.
  assert (∀ t, t ∈ [tag_x2] →
               TagGroup_Contains listing_order
                 (group_of "g" [tag_x1; tag_y2]) [t] = false) as Hnone.
  { intros t Ht. apply list_elem_of_singleton in Ht. rewrite Ht.
    vm_compute. reflexivity. }
  split; [exact fair_listing_order|].
  split; [apply group_of_inv|].
  split; [exact Hnone|].
  split.
  - exact (proj1 (proj2 (TagGroup_Remove_spec listing_order fair_listing_order
                           (group_of "g" [tag_x1; tag_y2]) [tag_x2])) Hnone).
  - exact (proj2 (proj2 (TagGroup_Remove_spec listing_order fair_listing_order
                           (group_of "g" [tag_x1; tag_y2]) [tag_x1]))
             (group_of_inv _ _)).
Defined.

(** ** Groups: how the queries relate *)

Section QueryRelations.

Variable rt : Runtime.
Hypothesis rt_fair : fair rt.

(** X19: when [Contains] holds for some tags, [ContainsNames] holds for
    their names. *)
Theorem TagGroup_Contains_ContainsNames g tags :
  TagGroup_inv g →
  TagGroup_Contains rt g tags = true →
  TagGroup_ContainsNames rt g (Tag_Name <$> tags) = true.
Proof.
  intros Hg [Hnd Hall]%(TagGroup_Contains_true rt rt_fair); [|done].
  apply (TagGroup_ContainsNames_NoDup rt rt_fair); [done|done|].
  intros n (t & -> & Ht)%list_elem_of_fmap.
  destruct (Hall t Ht) as (m & Hm & Hn & _).
  apply elem_of_members_inv in Hm; [|done].
  unfold Tag_Name. rewrite <- Hn. eauto.
Qed.

(** X20: [FindNames] returns members whose names are among the supplied
    ones, no name twice, and so never more tags than names were
    supplied. *)
Theorem TagGroup_FindNames_spec g names :
  TagGroup_inv g →
  (∀ t, t ∈ TagGroup_FindNames rt g names
        ↔ TagGroup_tags g !! Tag_name t = Some t ∧ Tag_name t ∈ names)
  ∧ NoDup (Tag_Name <$> TagGroup_FindNames rt g names)
  ∧ length (TagGroup_FindNames rt g names) ≤ length names.
Proof.
  intros Hg.
  assert (∀ t, t ∈ TagGroup_FindNames rt g names
               ↔ TagGroup_tags g !! Tag_name t = Some t ∧ Tag_name t ∈ names)
    as Hel.
  { intros t. unfold TagGroup_FindNames.
    by rewrite (elem_of_TagGroup_FindFunc rt rt_fair), slices_Contains_true. }
  assert (NoDup (Tag_Name <$> TagGroup_FindNames rt g names)) as Hnd.
  { apply (sublist_NoDup _ (Tag_Name <$> TagGroup_Tags rt g)).
    - by apply TagGroup_Tags_names_NoDup.
    - apply fmap_sublist. unfold TagGroup_FindNames, TagGroup_FindFunc.
      rewrite (List_filter_stdpp _
                 (λ t, slices.Contains names (Tag_Name t) = true)) by done.
      apply sublist_filter. }
  split_and!; [done|done|].
  rewrite <- (length_fmap Tag_Name). apply submseteq_length.
  apply NoDup_submseteq; [done|].
  intros n (t & -> & Ht)%list_elem_of_fmap. by apply Hel in Ht as [_ ?].
Qed.

End QueryRelations.

Lemma TagGroup_Contains_ContainsNames_witness :
  fair listing_order
  ∧ TagGroup_inv (group_of "g" [tag_x1; tag_y2])
  ∧ TagGroup_Contains listing_order (group_of "g" [tag_x1; tag_y2])
      [tag_y2; tag_x1] = true
  ∧ TagGroup_ContainsNames listing_order (group_of "g" [tag_x1; tag_y2])
      (Tag_Name <$> [tag_y2; tag_x1]) = true.
Proof.
  split; [exact fair_listing_order|].
  split; [apply group_of_inv|].
  split; [vm_compute; reflexivity|].
  apply (TagGroup_Contains_ContainsNames listing_order fair_listing_order).
  - apply group_of_inv.
  - vm_compute. reflexivity.
Defined.

Lemma TagGroup_FindNames_spec_witness :
  fair listing_order
  ∧ TagGroup_inv (group_of "g" [tag_x1; tag_y2])
  ∧ (∀ t, t ∈ TagGroup_FindNames listing_order
                (group_of "g" [tag_x1; tag_y2]) ["y"; "y"; "z"]%string
          ↔ TagGroup_tags (group_of "g" [tag_x1; tag_y2]) !! Tag_name t
            = Some t
            ∧ Tag_name t ∈ ["y"; "y"; "z"]%string)
  ∧ NoDup (Tag_Name <$>
             TagGroup_FindNames listing_order
               (group_of "g" [tag_x1; tag_y2]) ["y"; "y"; "z"]%string)
  ∧ length (TagGroup_FindNames listing_order
              (group_of "g" [tag_x1; tag_y2]) ["y"; "y"; "z"]%string)
    ≤ length ["y"; "y"; "z"]%string.
Proof.
  split; [exact fair_listing_order|].
  split; [apply group_of_inv|].
  apply (TagGroup_FindNames_spec listing_order fair_listing_order).
  apply group_of_inv.
Defined.

(** ** The text encoding: [String], then [Parse] *)

Lemma CountString_app a b c :
  strings.CountString (a +:+ b) c
  = strings.CountString a c + strings.CountString b c.
Proof. induction a as [|x a IH]; simpl; [done|]. rewrite IH. lia. Qed.

Lemma CountString_Join vs :
  Forall (λ v, colons v = 0) vs →
  strings.CountString (strings.Join vs ",") ":" = 0.
Proof.
  induction 1 as [|v vs Hv _ IH]; [done|].
  rewrite <- CountString_colons in Hv.
  destruct vs as [|w vs]; [done|].
  change (strings.Join (v :: w :: vs) ",")
    with (v +:+ "," +:+ strings.Join (w :: vs) ",").
  rewrite !CountString_app, Hv, IH. done.
Qed.

Lemma Index_app_byte a b c :
  strings.CountString a c = 0 →
  strings.Index (a +:+ String c b) (String c EmptyString)
  = Some (strings.len a).
Proof.
  induction a as [|x a IH]; intros Ha.
  - change (EmptyString +:+ String c b) with (String c b).
    cbn [strings.Index]. rewrite HasPrefix_byte.
    by rewrite Ascii.eqb_refl.
  - simpl in Ha. destruct (Ascii.eqb x c) eqn:Hx; [done|].
    change (String x a +:+ String c b) with (String x (a +:+ String c b)).
    cbn [strings.Index]. rewrite HasPrefix_byte, Hx, IH by done. done.
Qed.

Lemma take_app a b : strings.take (strings.len a) (a +:+ b) = a.
Proof. induction a as [|x a IH]; simpl; [by destruct b|]. by rewrite IH. Qed.

(** X21: for a tag whose name and values hold no [':'], [Parse] accepts
    the tag's [String] and returns a tag with the same name; when the tag
    is a label, it returns the tag itself. *)
Theorem Parse_String_name t :
  colons (Tag_name t) = 0 →
  Forall (λ v, colons v = 0) (Tag_values t) →
  ∃ t', Parse (Tag_String t) = Ok t'
        ∧ Tag_Name t' = Tag_Name t
        ∧ (Tag_IsLabel t = true → t' = t).
Proof.
  intros Hn Hv. destruct t as [name values]. cbn [Tag_name Tag_values] in *.
  destruct values as [|v values].
  - exists {| Tag_name := name; Tag_values := [] |}.
    split; [by apply Parse_no_colon|done].
  - unfold Tag_String. cbn [Tag_IsLabel Tag_values length Nat.eqb Tag_name].
    rewrite Tag_Values_eq. cbn [Tag_values].
    set (J := strings.Join (v :: values) ",").
    change (name +:+ ":" +:+ J) with (name +:+ String ":" J).
    assert (strings.CountString (name +:+ String ":" J) ":" = 1) as Hc.
    { rewrite CountString_app, CountString_colons, Hn. simpl.
      unfold J. by rewrite CountString_Join. }
    destruct (Split_byte_once ":" _ Hc) as (m & Hm & HS & _).
    rewrite Index_app_byte in Hm by by rewrite CountString_colons.
    injection Hm as <-. rewrite take_app in HS.
    rewrite Parse_unfold, HS. eexists. split; [done|]. split; done.
Qed.

Lemma Parse_String_name_witness :
  colons "env" = 0
  ∧ Forall (λ v, colons v = 0) ["prod"]%string
  ∧ ∃ t', Parse (Tag_String
                   {| Tag_name := "env"; Tag_values := ["prod"]%string |})
          = Ok t'
          ∧ Tag_Name t' = "env"%string
          ∧ (Tag_IsLabel {| Tag_name := "env"; Tag_values := ["prod"]%string |}
             = true →
             t' = {| Tag_name := "env"; Tag_values := ["prod"]%string |}).
Proof.
  assert (Forall (λ v, colons v = 0) ["prod"]%string) as Hv.
  { apply Forall_cons. split; [reflexivity|apply Forall_nil_2]. }
  split; [reflexivity|]. split; [exact Hv|].
  apply (Parse_String_name {| Tag_name := "env"; Tag_values := ["prod"]%string |});
    [reflexivity|exact Hv].
Defined.

(** ** Tags built by [New] *)

Section NewTags.

Variable rt : Runtime.
Hypothesis rt_fair : fair rt.

(** X22: for a tag built by [New], [IsLabel] holds exactly when every
    input value is blank, [Value] is empty exactly for a label and is
    otherwise one of the non-blank inputs, and [IsMultiValue] holds exactly
    when there are two or more distinct non-blank inputs. *)
Theorem New_classification name values t :
  New rt name values = Ok t →
  (Tag_IsLabel t = true
   ↔ ∀ v, v ∈ values → strings.TrimSpace v = EmptyString)
  ∧ (Tag_IsLabel t = true ↔ Tag_Value t = EmptyString)
  ∧ (Tag_IsLabel t = false →
     Tag_Value t ∈ values ∧ strings.TrimSpace (Tag_Value t) ≠ EmptyString)
  ∧ (Tag_IsMultiValue t = true
     ↔ 2 ≤ length (remove_dups
                     (filter (λ v, strings.TrimSpace v ≠ EmptyString) values))).
Proof.
  intros Ht.
  destruct (decide (strings.TrimSpace name = EmptyString)) as [Hn|Hn].
  { by rewrite New_Err in Ht. }
  destruct (New_spec rt rt_fair name values Hn) as (t' & Ht' & _ & _ & Hel & Hp).
  rewrite Ht in Ht'. injection Ht' as <-.
  rewrite Tag_Values_eq in Hp. setoid_rewrite Tag_Values_eq in Hel.
  unfold Tag_IsLabel, Tag_IsMultiValue, Tag_Value, Tag_IsLabel.
  rewrite <- Hp. destruct (Tag_values t) as [|v vs] eqn:Hvs; simpl.
  - split_and!; try done.
    + split; [|done]. intros _ v Hv.
      destruct (decide (strings.TrimSpace v = EmptyString)) as [|Hne]; [done|].
      assert (v ∈ []) as Hin by by apply Hel. by apply elem_of_nil in Hin.
    + split; [done|lia].
  - assert (v ∈ values ∧ strings.TrimSpace v ≠ EmptyString) as [Hv1 Hv2].
    { apply Hel. left. }
    split_and!.
    + split; [done|]. intros H. exfalso. by apply Hv2, H.
    + split; [done|]. intros ->. exfalso. by apply Hv2.
    + done.
    + rewrite Nat.ltb_lt. lia.
Qed.

End NewTags.

Lemma New_classification_witness :
  fair listing_order
  ∧ New listing_order "team" ["search"; ""; "search"]%string
    = Ok {| Tag_name := "team"; Tag_values := ["search"]%string |}
  ∧ Tag_IsLabel {| Tag_name := "team"; Tag_values := ["search"]%string |}
    = false
  ∧ Tag_Value {| Tag_name := "team"; Tag_values := ["search"]%string |}
    ∈ ["search"; ""; "search"]%string.
Proof.
  split; [exact fair_listing_order|].
  split; [vm_compute; reflexivity|]. split; [reflexivity|].
  apply (proj1 (proj2 (proj2 (New_classification listing_order
                                fair_listing_order "team"
                                ["search"; ""; "search"]%string
                                {| Tag_name := "team";
                                   Tag_values := ["search"]%string |}
                                ltac:(vm_compute; reflexivity))))).
  reflexivity.
Defined.
